(** * AVL tree of [datastructures/avltree.py]: shallow embedding and properties

    The Python module implements an ordered key/value container as an AVL
    tree.  Nodes are mutable objects that are exclusively owned by their
    parent slot (no sharing, no parent pointers), and every mutating helper
    returns the new subtree root that the caller stores back.  The embedding
    therefore represents a subtree by an inductive value and every helper by
    a function returning the new subtree.

    An attribute access on [None] raises in Python; such helpers return
    [option], with [None] standing for the raised exception.  Keys are Python
    integers ([Z]); values are arbitrary.  The file first gives the embedding
    of the code, then the vocabulary the properties are stated in, then the
    proofs. *)

From Stdlib Require Import ZArith List Lia Bool String Sorted Permutation.
From Equations Require Import Equations.
Import ListNotations.
Open Scope Z_scope.

(** ** Exceptions as [option] *)

Definition bind {A B : Type} (m : option A) (k : A -> option B) : option B :=
  match m with
  | Some a => k a
  | None => None
  end.

Notation "x <- m ;; k" := (bind m (fun x => k))
  (at level 61, m at next level, right associativity).

(** ** Nodes *)

(** A child slot: either Python's [None] ([Absent]) or an [AVLNode] object
    with its five fields. *)
Inductive AVLNode (V : Type) : Type :=
| Absent : AVLNode V
| Node (_key : Z) (_value : V) (_left _right : AVLNode V) (_height : Z) : AVLNode V.

Arguments Absent {V}.
Arguments Node {V} _key _value _left _right _height.

Section Tree.

Context {V : Type}.

Local Abbreviation tree := (AVLNode V).

(** [AVLNode.__init__]: a fresh node has height 1. *)
Definition new_node (key : Z) (value : V) : tree :=
  Node key value Absent Absent 1.

(** The expression [c.get_height if c else 0] used for both children. *)
Definition child_height (c : tree) : Z :=
  match c with
  | Absent => 0
  | Node _ _ _ _ h => h
  end.

(** [AVLNode.balance_factor]. *)
Definition balance_factor (node : tree) : option Z :=
  match node with
  | Absent => None
  | Node _ _ l r _ => Some (child_height l - child_height r)
  end.

(** ** Rebalancing *)

(** [AVLTree.update_height] *)
Definition update_height (node : tree) : option tree :=
  match node with
  | Absent => None
  | Node k v l r _ => Some (Node k v l r (Z.max (child_height l) (child_height r) + 1))
  end.

(** [AVLTree.rotate_right] *)
Definition rotate_right (node : tree) : option tree :=
  match node with
  | Absent => None
  | Node k v new_root r h =>
      match new_root with
      | Absent => None
      | Node k' v' l' r' h' =>
          node' <- update_height (Node k v r' r h) ;;
          update_height (Node k' v' l' node' h')
      end
  end.

(** [AVLTree.rotate_left] *)
Definition rotate_left (node : tree) : option tree :=
  match node with
  | Absent => None
  | Node k v l new_root h =>
      match new_root with
      | Absent => None
      | Node k' v' l' r' h' =>
          node' <- update_height (Node k v l l' h) ;;
          update_height (Node k' v' node' r' h')
      end
  end.

(** [AVLTree.balance] *)
Definition balance (node : tree) : option tree :=
  match node with
  | Absent => None
  | Node k v l r h =>
      bf <- balance_factor node ;;
      if bf >? 1 then
        lbf <- balance_factor l ;;
        l' <- (if lbf <? 0 then rotate_left l else Some l) ;;
        rotate_right (Node k v l' r h)
      else if bf <? -1 then
        rbf <- balance_factor r ;;
        r' <- (if rbf >? 0 then rotate_right r else Some r) ;;
        rotate_left (Node k v l r' h)
      else Some node
  end.

(** The common tail of [_insert] and [_delete]:
    [self.update_height(node); return self.balance(node)]. *)
Definition rebalance (node : tree) : option tree :=
  node' <- update_height node ;; balance node'.

(** [AVLTree._min_value_node] *)
Fixpoint _min_value_node (node : tree) : option tree :=
  match node with
  | Absent => None
  | Node _ _ l _ _ =>
      match l with
      | Absent => Some node
      | Node _ _ _ _ _ => _min_value_node l
      end
  end.

(** ** Insert, search, delete *)

(** The local function [_insert] of [AVLTree.insert]. *)
Fixpoint _insert (node : tree) (key : Z) (value : V) : option tree :=
  match node with
  | Absent => Some (new_node key value)
  | Node k v l r h =>
      if key <? k then
        l' <- _insert l key value ;; rebalance (Node k v l' r h)
      else
        r' <- _insert r key value ;; rebalance (Node k v l r' h)
  end.

(** The local function [_search] of [AVLTree.search]. *)
Fixpoint _search (node : tree) (key : Z) : option V :=
  match node with
  | Absent => None
  | Node k v l r _ =>
      if key =? k then Some v
      else if key <? k then _search l key
      else _search r key
  end.

(** The local function [_delete] of [AVLTree.delete]. *)
Fixpoint _delete (node : tree) (key : Z) : option tree :=
  match node with
  | Absent => Some Absent
  | Node k v l r h =>
      if key <? k then
        l' <- _delete l key ;; rebalance (Node k v l' r h)
      else if key >? k then
        r' <- _delete r key ;; rebalance (Node k v l r' h)
      else
        match l, r with
        | Absent, _ => Some r
        | _, Absent => Some l
        | _, _ =>
            temp <- _min_value_node r ;;
            match temp with
            | Absent => None
            | Node tk tv _ _ _ =>
                r' <- _delete r tk ;; rebalance (Node tk tv l r' h)
            end
        end
  end.

(** ** Traversals and size *)

(** The statement [if visit: visit(node._value)].  The callback acts on some
    outside state [S]; [Some f] stands for a callback that passes the test
    [if visit:], [None] for an argument that fails it. *)
Definition call_visit {S : Type} (visit : option (V -> S -> S)) (v : V) (s : S) : S :=
  match visit with
  | Some f => f v s
  | None => s
  end.

(** The local function [_inorder]: [keys] is the list being appended to. *)
Fixpoint _inorder {S : Type} (node : tree) (visit : option (V -> S -> S))
    (keys : list Z) (s : S) : list Z * S :=
  match node with
  | Absent => (keys, s)
  | Node k v l r _ =>
      let '(keys1, s1) := _inorder l visit keys s in
      _inorder r visit (keys1 ++ [k]) (call_visit visit v s1)
  end.

(** The local function [_preorder]. *)
Fixpoint _preorder {S : Type} (node : tree) (visit : option (V -> S -> S))
    (keys : list Z) (s : S) : list Z * S :=
  match node with
  | Absent => (keys, s)
  | Node k v l r _ =>
      let '(keys1, s1) := _preorder l visit (keys ++ [k]) (call_visit visit v s) in
      _preorder r visit keys1 s1
  end.

(** The local function [_postorder]. *)
Fixpoint _postorder {S : Type} (node : tree) (visit : option (V -> S -> S))
    (keys : list Z) (s : S) : list Z * S :=
  match node with
  | Absent => (keys, s)
  | Node k v l r _ =>
      let '(keys1, s1) := _postorder l visit keys s in
      let '(keys2, s2) := _postorder r visit keys1 s1 in
      (keys2 ++ [k], call_visit visit v s2)
  end.

(** The local function [_size]. *)
Fixpoint _size (node : tree) : Z :=
  match node with
  | Absent => 0
  | Node _ _ l r _ => 1 + _size l + _size r
  end.

(** Number of nodes, used as the termination measure of the queue loop. *)
Fixpoint node_count (t : tree) : nat :=
  match t with
  | Absent => O
  | Node _ _ l r _ => S (node_count l + node_count r)
  end.

Definition queue_weight (q : list tree) : nat :=
  list_sum (map (fun t => S (2 * node_count t)) q).

(** The [while q:] loop of [AVLTree.bforder]; [q] is the deque. *)
Equations? bforder_loop {S : Type} (visit : option (V -> S -> S))
    (q : list tree) (keys : list Z) (s : S) : list Z * S
    by wf (queue_weight q) lt :=
  bforder_loop visit [] keys s := (keys, s);
  bforder_loop visit (Absent :: q) keys s := bforder_loop visit q keys s;
  bforder_loop visit (Node k v l r _ :: q) keys s :=
    bforder_loop visit (q ++ [l; r]) (keys ++ [k]) (call_visit visit v s).
Proof.
  all: unfold queue_weight; rewrite ?map_app, ?list_sum_app; unfold list_sum;
    cbn [map fold_right node_count]; lia.
Qed.

End Tree.

(** ** The tree object and its public methods *)

Record AVLTree (V : Type) : Type := mkAVLTree { _root : AVLNode V }.

Arguments mkAVLTree {V} _root.
Arguments _root {V} _.

(** A callback object as the test [if visit:] sees it: its truth value and
    what a call does with a value.  Functions and lambdas are true; an
    object may define a false truth value. *)
Record callback (V S : Type) : Type :=
  mkCallback { truth_value : bool; on_value : V -> S -> S }.

Arguments mkCallback {V S} truth_value on_value.
Arguments truth_value {V S} _.
Arguments on_value {V S} _.

Section API.

Context {V : Type}.

Definition empty : AVLTree V := mkAVLTree Absent.

Definition insert (self : AVLTree V) (key : Z) (value : V) : option (AVLTree V) :=
  r <- _insert (_root self) key value ;; Some (mkAVLTree r).

Definition search (self : AVLTree V) (key : Z) : option V :=
  _search (_root self) key.

Definition delete (self : AVLTree V) (key : Z) : option (AVLTree V) :=
  r <- _delete (_root self) key ;; Some (mkAVLTree r).

(** The object a caller of [search] receives: [_search] returns the stored
    value or Python's [None], so a stored value that is itself [None]
    ([is_none] tells which values are) cannot be told from a missing key.
    [Some v] is a returned value other than [None]. *)
Definition search_returns (is_none : V -> bool) (self : AVLTree V) (key : Z)
    : option V :=
  match search self key with
  | Some v => if is_none v then None else Some v
  | None => None
  end.

(** The argument [visit] of a traversal after the test [if visit:]: the
    default [None] and a callback whose truth value is false fail it
    alike. *)
Definition tested {S : Type} (visit : option (callback V S)) : option (V -> S -> S) :=
  match visit with
  | Some c => if truth_value c then Some (on_value c) else None
  | None => None
  end.

(** The outside state after the traversal of the pairs [ps]: a callback
    that passes the test has been called on each value, first to last; any
    other argument leaves the state as it was. *)
Definition called_on {S : Type} (visit : option (callback V S))
    (ps : list (Z * V)) (s : S) : S :=
  match visit with
  | Some c =>
      if truth_value c then fold_left (fun s' p => on_value c (snd p) s') ps s
      else s
  | None => s
  end.

Definition inorder_with {S : Type} (self : AVLTree V)
    (visit : option (V -> S -> S)) (s : S) : list Z * S :=
  _inorder (_root self) visit [] s.

Definition bforder_with {S : Type} (self : AVLTree V)
    (visit : option (V -> S -> S)) (s : S) : list Z * S :=
  bforder_loop visit [_root self] [] s.

Definition preorder_with {S : Type} (self : AVLTree V)
    (visit : option (V -> S -> S)) (s : S) : list Z * S :=
  _preorder (_root self) visit [] s.

Definition postorder_with {S : Type} (self : AVLTree V)
    (visit : option (V -> S -> S)) (s : S) : list Z * S :=
  _postorder (_root self) visit [] s.

(** The calls [inorder()] and [bforder()] without a callback. *)
Definition inorder (self : AVLTree V) : list Z :=
  fst (inorder_with self (None : option (V -> unit -> unit)) tt).

Definition bforder (self : AVLTree V) : list Z :=
  fst (bforder_with self (None : option (V -> unit -> unit)) tt).

Definition size (self : AVLTree V) : Z := _size (_root self).

(** [AVLTree.__init__]: repeated insertion of the starting sequence. *)
Fixpoint insert_all (self : AVLTree V) (items : list (Z * V)) : option (AVLTree V) :=
  match items with
  | [] => Some self
  | (key, value) :: rest => self' <- insert self key value ;; insert_all self' rest
  end.

Definition init (starting_sequence : list (Z * V)) : option (AVLTree V) :=
  insert_all empty starting_sequence.

End API.

(** ** Abstract views and invariants *)

Section Vocabulary.

Context {V : Type}.

Local Abbreviation tree := (AVLNode V).

(** The key/value pairs of a subtree, left to right. *)
Fixpoint elements (t : tree) : list (Z * V) :=
  match t with
  | Absent => []
  | Node k v l r _ => elements l ++ (k, v) :: elements r
  end.

Definition keys_of (t : tree) : list Z := map fst (elements t).

(** The height computed from the shape alone: a leaf has height 1, an
    absent child contributes 0. *)
Fixpoint true_height (t : tree) : Z :=
  match t with
  | Absent => 0
  | Node _ _ l r _ => Z.max (true_height l) (true_height r) + 1
  end.

(** Cache coherence: every cached height is the true height. *)
Fixpoint heights_ok (t : tree) : Prop :=
  match t with
  | Absent => True
  | Node _ _ l r h =>
      heights_ok l /\ heights_ok r /\ h = Z.max (true_height l) (true_height r) + 1
  end.

(** AVL balance, on the cached heights of the children. *)
Fixpoint balanced (t : tree) : Prop :=
  match t with
  | Absent => True
  | Node _ _ l r _ =>
      balanced l /\ balanced r /\ Z.abs (child_height l - child_height r) <= 1
  end.

(** Search-tree order with unique keys. *)
Fixpoint bst (t : tree) : Prop :=
  match t with
  | Absent => True
  | Node k _ l r _ =>
      Forall (fun x => x < k) (keys_of l) /\ Forall (fun x => k < x) (keys_of r)
      /\ bst l /\ bst r
  end.

Definition strictly_ascending (ks : list Z) : Prop := StronglySorted Z.lt ks.

(** The two structural invariants the rebalancing code relies on. *)
Definition avl (t : tree) : Prop := heights_ok t /\ balanced t.

(** The pairs left after dropping those stored under [key]. *)
Definition remove_key (key : Z) (xs : list (Z * V)) : list (Z * V) :=
  filter (fun p => negb (fst p =? key)) xs.

(** Keys of the nodes at the front of a queue, and the children they
    enqueue (absent ones included). *)
Fixpoint roots (q : list tree) : list Z :=
  match q with
  | [] => []
  | Absent :: q' => roots q'
  | Node k _ _ _ _ :: q' => k :: roots q'
  end.

Fixpoint kids (q : list tree) : list tree :=
  match q with
  | [] => []
  | Absent :: q' => kids q'
  | Node _ _ l r _ :: q' => l :: r :: kids q'
  end.

(** Keys at depth [d] of a subtree, left to right. *)
Fixpoint level_keys (d : nat) (t : tree) : list Z :=
  match t with
  | Absent => []
  | Node k _ l r _ =>
      match d with
      | O => [k]
      | S d' => level_keys d' l ++ level_keys d' r
      end
  end.

(** Number of levels of a subtree. *)
Fixpoint depth (t : tree) : nat :=
  match t with
  | Absent => O
  | Node _ _ l r _ => S (Nat.max (depth l) (depth r))
  end.

Definition queue_depth (q : list tree) : nat :=
  fold_right (fun t n => Nat.max (depth t) n) O q.

(** The keys of a queue of subtrees, one level after the other. *)
Fixpoint queue_levels (n : nat) (q : list tree) : list Z :=
  match n with
  | O => []
  | S n' => roots q ++ queue_levels n' (kids q)
  end.

(** Key sequences in non-decreasing order. *)
Definition ascending (ks : list Z) : Prop := StronglySorted Z.le ks.

(** The pairs of a subtree, node first. *)
Fixpoint preorder_elements (t : tree) : list (Z * V) :=
  match t with
  | Absent => []
  | Node k v l r _ => (k, v) :: preorder_elements l ++ preorder_elements r
  end.

(** The pairs of a subtree, node last. *)
Fixpoint postorder_elements (t : tree) : list (Z * V) :=
  match t with
  | Absent => []
  | Node k v l r _ => postorder_elements l ++ postorder_elements r ++ [(k, v)]
  end.

(** The state after the callback has been called on the values of [ps],
    first to last. *)
Definition visit_all {S : Type} (visit : option (V -> S -> S))
    (ps : list (Z * V)) (s : S) : S :=
  fold_left (fun s' p => call_visit visit (snd p) s') ps s.

(** Pairs of the nodes at the front of a queue. *)
Fixpoint root_pairs (q : list tree) : list (Z * V) :=
  match q with
  | [] => []
  | Absent :: q' => root_pairs q'
  | Node k v _ _ _ :: q' => (k, v) :: root_pairs q'
  end.

(** Pairs at depth [d] of a subtree, left to right. *)
Fixpoint level_elements (d : nat) (t : tree) : list (Z * V) :=
  match t with
  | Absent => []
  | Node k v l r _ =>
      match d with
      | O => [(k, v)]
      | S d' => level_elements d' l ++ level_elements d' r
      end
  end.

(** The pairs of a tree, level by level. *)
Definition level_order (t : tree) : list (Z * V) :=
  List.concat (map (fun d => level_elements d t) (seq 0 (depth t))).

(** The pairs of a queue of subtrees, one level after the other. *)
Fixpoint queue_level_pairs (n : nat) (q : list tree) : list (Z * V) :=
  match n with
  | O => []
  | S n' => root_pairs q ++ queue_level_pairs n' (kids q)
  end.

End Vocabulary.

(** ** Sequences of public calls *)

Inductive call (V : Type) : Type :=
| CallInsert (key : Z) (value : V)
| CallDelete (key : Z)
| CallSearch (key : Z)
| CallInorder
| CallBforder
| CallSize.

Arguments CallInsert {V} key value.
Arguments CallDelete {V} key.
Arguments CallSearch {V} key.
Arguments CallInorder {V}.
Arguments CallBforder {V}.
Arguments CallSize {V}.

Section Calls.

Context {V : Type}.

(** The tree after one public call; [search], the traversals and [size]
    assign no field. *)
Definition apply_call (self : AVLTree V) (c : call V) : option (AVLTree V) :=
  match c with
  | CallInsert key value => insert self key value
  | CallDelete key => delete self key
  | CallSearch _ | CallInorder | CallBforder | CallSize => Some self
  end.

Fixpoint run (self : AVLTree V) (calls : list (call V)) : option (AVLTree V) :=
  match calls with
  | [] => Some self
  | c :: rest => self' <- apply_call self c ;; run self' rest
  end.

(** A call sequence in which no insertion uses a key the tree holds at
    that moment. *)
Fixpoint fresh_inserts (self : AVLTree V) (calls : list (call V)) : Prop :=
  match calls with
  | [] => True
  | c :: rest =>
      match c with
      | CallInsert key _ => ~ In key (inorder self)
      | _ => True
      end /\
      match apply_call self c with
      | Some self' => fresh_inserts self' rest
      | None => True
      end
  end.

End Calls.

(** ** Concrete trees *)

(** Root 20 with the leaves 10 and 30. *)
Definition three_nodes : AVLNode string :=
  Node 20 "b"%string (Node 10 "a"%string Absent Absent 1)
                     (Node 30 "c"%string Absent Absent 1) 2.

(** A left chain 30, 20, 10 just after the height of its root was updated. *)
Definition left_chain : AVLNode string :=
  Node 30 "c"%string
       (Node 20 "b"%string (Node 10 "a"%string Absent Absent 1) Absent 2)
       Absent 3.

(** Insert 2, insert 1, delete 2, insert 3, search 1. *)
Definition fresh_calls_example : list (call string) :=
  [CallInsert 2 "b"%string; CallInsert 1 "a"%string; CallDelete 2;
   CallInsert 3 "c"%string; CallSearch 1].

Definition distinct_items : list (Z * string) :=
  [(2, "b"%string); (1, "a"%string); (3, "c"%string)].

(** The tree the constructor builds from the key 5 given three times. *)
Definition three_fives : AVLNode string :=
  Node 5 "b"%string (Node 5 "a"%string Absent Absent 1)
                    (Node 5 "c"%string Absent Absent 1) 2.

(** The starting sequence 4,4,2,4,2,6,4. *)
Definition duplicate_items : list (Z * string) :=
  [(4, "a"%string); (4, "b"%string); (2, "c"%string); (4, "d"%string);
   (2, "e"%string); (6, "f"%string); (4, "g"%string)].

(** * Proofs *)

Lemma bind_Some {A B : Type} (m : option A) (k : A -> option B) (b : B) :
  bind m k = Some b -> exists a, m = Some a /\ k a = Some b.
Proof. destruct m as [a |]; cbn; [eauto | discriminate]. Qed.

Section HeightFacts.

Context {V : Type}.

Local Abbreviation tree := (AVLNode V).

Lemma true_height_nonneg (t : tree) : 0 <= true_height t.
Proof. induction t; cbn [true_height]; lia. Qed.

Lemma child_height_true (t : tree) : heights_ok t -> child_height t = true_height t.
Proof. destruct t; cbn; [reflexivity | intros (_ & _ & ->); reflexivity]. Qed.

End HeightFacts.

(** Collects, for every subtree variable known to be coherent, that its
    cached height is its true height and that this height is not negative. *)
Ltac height_facts :=
  repeat match goal with
  | H : heights_ok ?x |- _ =>
      is_var x;
      lazymatch goal with
      | _ : child_height x = true_height x |- _ => fail
      | _ => pose proof (child_height_true x H); pose proof (true_height_nonneg x)
      end
  end.

Ltac app_norm :=
  repeat (rewrite <- app_assoc || rewrite <- app_comm_cons); try reflexivity.

Ltac split_all := repeat match goal with |- _ /\ _ => split end.

(** ** Rebalancing restores the invariants *)

Section Rebalancing.

Context {V : Type}.

Local Abbreviation tree := (AVLNode V).

Lemma rebalance_spec (k : Z) (v : V) (l r : tree) (h : Z) :
  avl l -> avl r ->
  -2 <= child_height l - child_height r <= 2 ->
  exists t',
    rebalance (Node k v l r h) = Some t' /\ avl t' /\
    Z.max (child_height l) (child_height r) <= child_height t'
      <= Z.max (child_height l) (child_height r) + 1 /\
    (Z.abs (child_height l - child_height r) <= 1 ->
     child_height t' = Z.max (child_height l) (child_height r) + 1) /\
    (Z.abs (child_height l - child_height r) <= 1 ->
     t' = Node k v l r (Z.max (child_height l) (child_height r) + 1)).
Proof.
  intros [Hl Bl] [Hr Br] Hd.
  unfold rebalance, avl. cbn [update_height bind balance balance_factor].
  rewrite Z.gtb_ltb.
  destruct (Z.ltb_spec 1 (child_height l - child_height r)) as [Hbf | Hbf].
  - destruct l as [| lk lv ll lr lh]; [height_facts; cbn in *; lia |].
    cbn [balance_factor bind]. cbn in Hl, Bl, Hbf, Hd.
    destruct Hl as (Hll & Hlr & Hlh), Bl as (Bll & Blr & Bl).
    destruct (Z.ltb_spec (child_height ll - child_height lr) 0) as [Hlbf | Hlbf].
    + destruct lr as [| mk mv ml mr mh]; [height_facts; cbn in *; lia |].
      cbn in Hlr, Blr, Hlbf, Bl, Hlh.
      destruct Hlr as (Hml & Hmr & Hmh), Blr as (Bml & Bmr & Bm).
      eexists. split; [reflexivity |].
      height_facts. cbn.
      split_all; auto; lia.
    + eexists. split; [reflexivity |].
      height_facts. cbn.
      split_all; auto; lia.
  - destruct (Z.ltb_spec (child_height l - child_height r) (-1)) as [Hbf' | Hbf'].
    + destruct r as [| rk rv rl rr rh]; [height_facts; cbn in *; lia |].
      cbn [balance_factor bind]. cbn in Hr, Br, Hbf', Hd.
      destruct Hr as (Hrl & Hrr & Hrh), Br as (Brl & Brr & Br).
      rewrite Z.gtb_ltb.
      destruct (Z.ltb_spec 0 (child_height rl - child_height rr)) as [Hrbf | Hrbf].
      * destruct rl as [| mk mv ml mr mh]; [height_facts; cbn in *; lia |].
        cbn in Hrl, Brl, Hrbf, Br, Hrh.
        destruct Hrl as (Hml & Hmr & Hmh), Brl as (Bml & Bmr & Bm).
        eexists. split; [reflexivity |].
        height_facts. cbn.
        split_all; auto; lia.
        * eexists. split; [reflexivity |].
        height_facts. cbn.
        split_all; auto; lia.
      + eexists. split; [reflexivity |].
      height_facts. cbn.
      split_all; auto; lia.
Qed.

End Rebalancing.

(** ** Shape: insertion and deletion keep the heights coherent and balanced *)

Section Shape.

Context {V : Type}.

Local Abbreviation tree := (AVLNode V).

Lemma avl_node (k : Z) (v : V) (l r : tree) (h : Z) :
  avl (Node k v l r h) ->
  avl l /\ avl r /\ h = Z.max (child_height l) (child_height r) + 1 /\
  Z.abs (child_height l - child_height r) <= 1.
Proof.
  intros [(Hl & Hr & Hh) (Bl & Br & Hb)].
  rewrite (child_height_true l Hl), (child_height_true r Hr) in *.
  unfold avl. split_all; assumption.
Qed.

Lemma child_height_nonneg (t : tree) : heights_ok t -> 0 <= child_height t.
Proof.
  intros H. rewrite (child_height_true t H). apply true_height_nonneg.
Qed.

Lemma insert_avl (t : tree) (key : Z) (value : V) :
  avl t ->
  exists t', _insert t key value = Some t' /\ avl t' /\
             child_height t <= child_height t' <= child_height t + 1.
Proof.
  induction t as [| k v l IHl r IHr h]; intros Ht.
  - exists (new_node key value). cbn. unfold avl. cbn. intuition lia.
  - apply avl_node in Ht. destruct Ht as (Al & Ar & Hh & Hb).
    cbn [_insert child_height].
    destruct (key <? k).
    + destruct (IHl Al) as (l' & -> & Al' & Hl'). cbn [bind].
      destruct (rebalance_spec k v l' r h Al' Ar) as (t' & -> & At' & Hb' & Hb'' & Hid);
        [lia |].
      exists t'. split_all; auto; lia.
    + destruct (IHr Ar) as (r' & -> & Ar' & Hr'). cbn [bind].
      destruct (rebalance_spec k v l r' h Al Ar') as (t' & -> & At' & Hb' & Hb'' & Hid);
        [lia |].
      exists t'. split_all; auto; lia.
Qed.

Lemma min_value_node_present (t : tree) :
  t <> Absent ->
  exists k v l r h, _min_value_node t = Some (Node k v l r h).
Proof.
  induction t as [| k v l IHl r _ h]; intros Hne; [congruence |].
  cbn [_min_value_node]. destruct l as [| lk lv ll lr lh]; [eauto 8 |].
  apply IHl. discriminate.
Qed.

Lemma delete_avl (t : tree) :
  avl t ->
  forall key,
  exists t', _delete t key = Some t' /\ avl t' /\
             child_height t - 1 <= child_height t' <= child_height t.
Proof.
  induction t as [| k v l IHl r IHr h]; intros Ht key.
  - exists Absent. cbn. intuition lia.
  - pose proof Ht as Hnode.
    apply avl_node in Ht. destruct Ht as (Al & Ar & Hh & Hb).
    cbn [_delete child_height].
    destruct (key <? k).
    + destruct (IHl Al key) as (l' & -> & Al' & Hl'). cbn [bind].
      destruct (rebalance_spec k v l' r h Al' Ar) as (t' & -> & At' & Hb' & Hb'' & Hid);
        [lia |].
      exists t'. split_all; auto; lia.
    + destruct (key >? k).
      * destruct (IHr Ar key) as (r' & -> & Ar' & Hr'). cbn [bind].
        destruct (rebalance_spec k v l r' h Al Ar') as (t' & -> & At' & Hb' & Hb'' & Hid);
          [lia |].
        exists t'. split_all; auto; lia.
      * destruct l as [| lk lv ll lr lh].
        { exists r. pose proof (child_height_nonneg r (proj1 Ar)).
          cbn [child_height] in *. split_all; auto; lia. }
        destruct r as [| rk rv rl rr rh].
        { exists (Node lk lv ll lr lh).
          pose proof (child_height_nonneg _ (proj1 Al)).
          cbn [child_height] in *. split_all; auto; lia. }
        destruct (min_value_node_present (Node rk rv rl rr rh))
          as (sk & sv & sl & sr & sh & ->); [discriminate |].
        cbn [bind].
        destruct (IHr Ar sk) as (r' & -> & Ar' & Hr'). cbn [bind].
        destruct (rebalance_spec sk sv (Node lk lv ll lr lh) r' h Al Ar')
          as (t' & -> & At' & Hb' & Hb'' & Hid); [lia |].
        exists t'. split_all; auto; lia.
Qed.

End Shape.

(** ** Contents: what the operations do to the key/value sequence *)

Section Contents.

Context {V : Type}.

Local Abbreviation tree := (AVLNode V).

Lemma update_height_elements (n t' : tree) :
  update_height n = Some t' -> elements t' = elements n.
Proof. destruct n; cbn; intros H; inversion H; reflexivity. Qed.

Lemma rotate_right_elements (n t' : tree) :
  rotate_right n = Some t' -> elements t' = elements n.
Proof.
  destruct n as [| k v [| lk lv ll lr lh] r h]; cbn; intros H; inversion H.
  cbn. app_norm.
Qed.

Lemma rotate_left_elements (n t' : tree) :
  rotate_left n = Some t' -> elements t' = elements n.
Proof.
  destruct n as [| k v l [| rk rv rl rr rh] h]; cbn; intros H; inversion H.
  cbn. app_norm.
Qed.

Lemma balance_elements (n t' : tree) :
  balance n = Some t' -> elements t' = elements n.
Proof.
  destruct n as [| k v l r h]; [discriminate |].
  cbn [balance balance_factor bind].
  destruct (child_height l - child_height r >? 1).
  - intros H. apply bind_Some in H. destruct H as (lbf & _ & H).
    apply bind_Some in H. destruct H as (l' & Hl' & H).
    apply rotate_right_elements in H. rewrite H. cbn [elements].
    destruct (lbf <? 0).
    + apply rotate_left_elements in Hl'. now rewrite Hl'.
    + now inversion Hl'.
  - destruct (child_height l - child_height r <? -1).
    + intros H. apply bind_Some in H. destruct H as (rbf & _ & H).
      apply bind_Some in H. destruct H as (r' & Hr' & H).
      apply rotate_left_elements in H. rewrite H. cbn [elements].
      destruct (rbf >? 0).
      * apply rotate_right_elements in Hr'. now rewrite Hr'.
      * now inversion Hr'.
    + intros H. now inversion H.
Qed.

Lemma rebalance_elements (n t' : tree) :
  rebalance n = Some t' -> elements t' = elements n.
Proof.
  unfold rebalance. intros H. apply bind_Some in H. destruct H as (n' & Hn' & H).
  apply balance_elements in H. apply update_height_elements in Hn'. congruence.
Qed.

(** *** Sorted key sequences *)

Lemma ascending_app_cons (xs ys : list Z) (k : Z) :
  strictly_ascending (xs ++ k :: ys) <->
  strictly_ascending xs /\ strictly_ascending ys /\
  Forall (fun x => x < k) xs /\ Forall (fun x => k < x) ys.
Proof.
  unfold strictly_ascending. induction xs as [| a xs IH]; cbn.
  - split.
    + intros H. inversion H; subst. split_all; auto; constructor.
    + intros (_ & Hys & _ & Hk). now constructor.
  - split.
    + intros H. inversion H as [| ? ? Hs Ha]; subst.
      apply IH in Hs. destruct Hs as (Hxs & Hys & Hlt & Hgt).
      apply Forall_app in Ha. destruct Ha as [Ha1 Ha2].
      split_all; auto.
      * now constructor.
      * constructor; auto. now inversion Ha2.
    + intros (Hxs & Hys & Hlt & Hgt).
      inversion Hxs as [| ? ? Hs Ha]; subst. inversion Hlt; subst.
      constructor.
      * apply IH. auto.
      * apply Forall_app. split; auto. constructor; auto.
        eapply Forall_impl; [| exact Hgt]. cbn. intros; lia.
Qed.

Lemma keys_of_node (k : Z) (v : V) (l r : tree) (h : Z) :
  keys_of (Node k v l r h) = keys_of l ++ k :: keys_of r.
Proof. unfold keys_of. cbn. now rewrite map_app. Qed.

(** The search-tree property is the same as a strictly ascending in-order
    key sequence. *)
Lemma bst_ascending (t : tree) : bst t <-> strictly_ascending (keys_of t).
Proof.
  induction t as [| k v l IHl r IHr h].
  - cbn. split; [constructor | trivial].
  - rewrite keys_of_node, ascending_app_cons. cbn [bst]. tauto.
Qed.

Lemma bst_same_elements (t t' : tree) :
  elements t' = elements t -> bst t -> bst t'.
Proof.
  intros He. rewrite !bst_ascending. unfold keys_of. now rewrite He.
Qed.

(** *** Insertion *)

(** Insertion adds exactly one pair, whether or not the key was there. *)
Lemma insert_elements (t : tree) (key : Z) (value : V) (t' : tree) :
  _insert t key value = Some t' ->
  Permutation (elements t') ((key, value) :: elements t).
Proof.
  revert t'. induction t as [| k v l IHl r IHr h]; intros t' H.
  - cbn in H. inversion H. reflexivity.
  - cbn [_insert] in H. destruct (key <? k).
    + apply bind_Some in H. destruct H as (l' & Hl' & H).
      apply rebalance_elements in H. rewrite H. cbn [elements].
      rewrite (IHl _ Hl'). reflexivity.
    + apply bind_Some in H. destruct H as (r' & Hr' & H).
      apply rebalance_elements in H. rewrite H. cbn [elements].
      rewrite (IHr _ Hr'). symmetry.
      change ((key, value) :: elements l ++ (k, v) :: elements r)
        with ((key, value) :: elements l ++ [(k, v)] ++ elements r).
      change (elements l ++ (k, v) :: (key, value) :: elements r)
        with (elements l ++ [(k, v)] ++ (key, value) :: elements r).
      rewrite !app_assoc. apply Permutation_middle.
Qed.

(** Inserting a key that is not yet in the tree keeps the search-tree
    order. *)
Lemma insert_fresh_bst (t : tree) (key : Z) (value : V) (t' : tree) :
  _insert t key value = Some t' ->
  bst t -> ~ In key (keys_of t) -> bst t'.
Proof.
  revert t'. induction t as [| k v l IHl r IHr h]; intros t' H Hb Hn.
  - cbn in H. inversion H. cbn. auto.
  - rewrite keys_of_node, in_app_iff in Hn. cbn [In] in Hn.
    assert (Hnl : ~ In key (keys_of l)) by tauto.
    assert (Hnr : ~ In key (keys_of r)) by tauto.
    assert (Hne : k <> key) by tauto.
    destruct Hb as (Hlt & Hgt & Hbl & Hbr).
    cbn [_insert] in H. destruct (Z.ltb_spec key k) as [Hk | Hk].
    + apply bind_Some in H. destruct H as (l' & Hl' & H).
      apply rebalance_elements in H. apply (bst_same_elements _ _ H).
      cbn [bst]. split_all; eauto.
      apply insert_elements in Hl'.
      apply (Permutation_map fst), Permutation_sym in Hl'.
      apply (Permutation_Forall Hl'). constructor; auto.
    + apply bind_Some in H. destruct H as (r' & Hr' & H).
      apply rebalance_elements in H. apply (bst_same_elements _ _ H).
      cbn [bst]. split_all; eauto.
      apply insert_elements in Hr'.
      apply (Permutation_map fst), Permutation_sym in Hr'.
      apply (Permutation_Forall Hr'). constructor; auto. cbn. lia.
Qed.

(** *** Deletion *)

Lemma remove_key_absent (key : Z) (xs : list (Z * V)) :
  Forall (fun x => x <> key) (map fst xs) -> remove_key key xs = xs.
Proof.
  induction xs as [| [a b] xs IH]; cbn; intros H; [reflexivity |].
  inversion H; subst. destruct (Z.eqb_spec a key); [contradiction |].
  cbn. f_equal. auto.
Qed.

Lemma min_value_node_head (t : tree) (sk : Z) (sv : V) (sl sr : tree) (sh : Z) :
  _min_value_node t = Some (Node sk sv sl sr sh) ->
  exists rest, elements t = (sk, sv) :: rest.
Proof.
  induction t as [| k v l IHl r _ h]; [discriminate |].
  cbn [_min_value_node]. destruct l as [| lk lv ll lr lh].
  - intros H. inversion H; subst. cbn. eauto.
  - intros H. destruct (IHl H) as (rest & Hrest).
    cbn [elements] in *. rewrite Hrest. cbn. eauto.
Qed.

Lemma Forall_neq_lt (key : Z) (ks : list Z) :
  Forall (fun x => x < key) ks -> Forall (fun x => x <> key) ks.
Proof. apply Forall_impl. intros; lia. Qed.

Lemma Forall_neq_gt (key : Z) (ks : list Z) :
  Forall (fun x => key < x) ks -> Forall (fun x => x <> key) ks.
Proof. apply Forall_impl. intros; lia. Qed.

Lemma Forall_lt_trans (a b : Z) (ks : list Z) :
  a <= b -> Forall (fun x => b < x) ks -> Forall (fun x => a < x) ks.
Proof. intros Hab. apply Forall_impl. intros; lia. Qed.

Lemma Forall_gt_trans (a b : Z) (ks : list Z) :
  b <= a -> Forall (fun x => x < b) ks -> Forall (fun x => x < a) ks.
Proof. intros Hab. apply Forall_impl. intros; lia. Qed.

(** On a search tree, deletion removes exactly the pair stored under the
    key and nothing else. *)
Lemma delete_elements (t : tree) :
  bst t ->
  forall key t', _delete t key = Some t' ->
  elements t' = remove_key key (elements t).
Proof.
  induction t as [| k v l IHl r IHr h]; intros Hb key t' H.
  - cbn in H. inversion H. reflexivity.
  - destruct Hb as (Hlt & Hgt & Hbl & Hbr).
    cbn [_delete] in H. cbn [elements]. unfold remove_key.
    rewrite filter_app. cbn [filter fst]. fold (remove_key key (elements l)).
    fold (remove_key key (elements r)).
    rewrite Z.gtb_ltb in H.
    destruct (Z.ltb_spec key k) as [Hk | Hk].
    + apply bind_Some in H. destruct H as (l' & Hl' & H).
      apply rebalance_elements in H. rewrite H. cbn [elements].
      rewrite (IHl Hbl _ _ Hl').
      destruct (Z.eqb_spec k key); [lia |]. cbn [negb].
      rewrite (remove_key_absent key (elements r)); [reflexivity |].
      apply Forall_neq_gt. eapply Forall_lt_trans; [| exact Hgt]. lia.
    + destruct (Z.ltb_spec k key) as [Hk' | Hk'].
      * apply bind_Some in H. destruct H as (r' & Hr' & H).
        apply rebalance_elements in H. rewrite H. cbn [elements].
        rewrite (IHr Hbr _ _ Hr').
        destruct (Z.eqb_spec k key); [lia |]. cbn [negb].
        rewrite (remove_key_absent key (elements l)); [reflexivity |].
        apply Forall_neq_lt. eapply Forall_gt_trans; [| exact Hlt]. lia.
      * assert (key = k) by lia. subst key.
        rewrite Z.eqb_refl. cbn [negb].
        rewrite (remove_key_absent k (elements l)) by now apply Forall_neq_lt.
        rewrite (remove_key_absent k (elements r)) by now apply Forall_neq_gt.
        destruct l as [| lk lv ll lr lh].
        { inversion H. reflexivity. }
        destruct r as [| rk rv rl rr rh].
        { inversion H. cbn [elements]. now rewrite app_nil_r. }
        remember (Node rk rv rl rr rh) as rn eqn:Ern. clear Ern.
        apply bind_Some in H. destruct H as (temp & Htemp & H).
        destruct temp as [| sk sv sl sr sh]; [discriminate |].
        apply bind_Some in H. destruct H as (r' & Hr' & H).
        apply rebalance_elements in H. rewrite H.
        destruct (min_value_node_head _ _ _ _ _ _ Htemp) as (rest & Hrest).
        cbn -[remove_key]. rewrite (IHr Hbr _ _ Hr').
        apply bst_ascending in Hbr. unfold keys_of in Hbr.
        rewrite Hrest in *. cbn [map fst] in Hbr.
        inversion Hbr as [| ? ? _ Hrest_gt]; subst.
        unfold remove_key at 1. cbn [filter fst]. rewrite Z.eqb_refl. cbn [negb].
        fold (remove_key sk rest).
        rewrite (remove_key_absent sk rest) by now apply Forall_neq_gt.
        reflexivity.
Qed.

(** Deleting the key of the leftmost node of a search tree removes exactly
    that node's pair, the first one in order. *)
Lemma delete_min_elements (r : tree) (sk : Z) (sv : V) (sl sr : tree) (sh : Z)
    (r' : tree) :
  bst r ->
  _min_value_node r = Some (Node sk sv sl sr sh) ->
  _delete r sk = Some r' ->
  elements r = (sk, sv) :: elements r'.
Proof.
  intros Hb Hmin Hdel.
  destruct (min_value_node_head _ _ _ _ _ _ Hmin) as (rest & Hrest).
  rewrite (delete_elements r Hb sk r' Hdel), Hrest.
  apply bst_ascending in Hb. unfold keys_of in Hb. rewrite Hrest in Hb.
  cbn [map fst] in Hb. inversion Hb as [| ? ? _ Hgt]; subst.
  unfold remove_key. cbn [filter fst]. rewrite Z.eqb_refl. cbn [negb].
  fold (remove_key sk rest).
  now rewrite (remove_key_absent sk rest) by now apply Forall_neq_gt.
Qed.

Lemma ascending_remove_key (key : Z) (xs : list (Z * V)) :
  strictly_ascending (map fst xs) ->
  strictly_ascending (map fst (remove_key key xs)).
Proof.
  unfold strictly_ascending.
  induction xs as [| [a b] xs IH]; cbn; intros H; [constructor |].
  inversion H as [| ? ? Hs Ha]; subst.
  destruct (negb (a =? key)); cbn; auto.
  constructor; auto.
  rewrite Forall_forall in *. intros x Hx. apply Ha.
  apply in_map_iff in Hx. destruct Hx as (p & <- & Hp).
  apply filter_In in Hp. apply in_map. tauto.
Qed.

(** Deletion keeps the search-tree order. *)
Lemma delete_bst (t : tree) (key : Z) (t' : tree) :
  bst t -> _delete t key = Some t' -> bst t'.
Proof.
  intros Hb H. apply bst_ascending. unfold keys_of.
  rewrite (delete_elements t Hb key t' H).
  apply ascending_remove_key. now apply bst_ascending.
Qed.

End Contents.

(** ** Traversals *)

Section Traversals.

Context {V : Type}.

Local Abbreviation tree := (AVLNode V).

Lemma _inorder_keys {S : Type} (t : tree) (visit : option (V -> S -> S)) :
  forall keys s, fst (_inorder t visit keys s) = keys ++ keys_of t.
Proof.
  induction t as [| k v l IHl r IHr h]; intros keys s.
  - cbn. now rewrite app_nil_r.
  - cbn [_inorder]. specialize (IHl keys s).
    destruct (_inorder l visit keys s) as [keys1 s1]. cbn [fst] in IHl.
    rewrite IHr, IHl, keys_of_node. app_norm.
Qed.

(** The callback sees the values in the same order, each exactly once. *)
Lemma _inorder_visits {S : Type} (t : tree) (visit : option (V -> S -> S)) :
  forall keys s,
    snd (_inorder t visit keys s) =
    fold_left (fun s' p => call_visit visit (snd p) s') (elements t) s.
Proof.
  induction t as [| k v l IHl r IHr h]; intros keys s; [reflexivity |].
  cbn [_inorder elements]. specialize (IHl keys s).
  destruct (_inorder l visit keys s) as [keys1 s1]. cbn [snd] in IHl.
  rewrite IHr, fold_left_app, IHl. reflexivity.
Qed.

Lemma inorder_keys (self : AVLTree V) : inorder self = keys_of (_root self).
Proof. unfold inorder, inorder_with. now rewrite _inorder_keys. Qed.

Lemma _size_length (t : tree) : _size t = Z.of_nat (List.length (keys_of t)).
Proof.
  induction t as [| k v l IHl r IHr h]; [reflexivity |].
  rewrite keys_of_node, length_app. cbn [_size List.length]. lia.
Qed.

Lemma kids_app (p q : list tree) : kids (p ++ q) = kids p ++ kids q.
Proof.
  induction p as [| [| k v l r h] p IH]; cbn; auto. now rewrite IH.
Qed.

Lemma roots_app (p q : list tree) : roots (p ++ q) = roots p ++ roots q.
Proof.
  induction p as [| [| k v l r h] p IH]; cbn; auto. now rewrite IH.
Qed.

(** Processing the queue [q] in front of already enqueued children outputs
    the keys of [q] and leaves the children of [q] behind them. *)
Lemma bforder_loop_front {S : Type} (visit : option (V -> S -> S)) (q : list tree) :
  forall p keys s, exists s',
    bforder_loop visit (q ++ kids p) keys s =
    bforder_loop visit (kids (p ++ q)) (keys ++ roots q) s'.
Proof.
  induction q as [| [| k v l r h] q IH]; intros p keys s.
  - exists s. cbn. now rewrite !app_nil_r.
  - cbn [app roots]. simp bforder_loop.
    destruct (IH p keys s) as (s' & ->). exists s'.
    now rewrite !kids_app.
  - cbn [app roots]. simp bforder_loop.
    replace ((q ++ kids p) ++ [l; r])
      with (q ++ kids (p ++ [Node k v l r h])).
    2: { rewrite kids_app. cbn. now rewrite app_assoc. }
    destruct (IH (p ++ [Node k v l r h]) (keys ++ [k]) (call_visit visit v s))
      as (s' & ->).
    exists s'. f_equal.
    + now rewrite <- app_assoc.
    + now rewrite <- app_assoc.
Qed.

Lemma queue_depth_zero (q : list tree) :
  queue_depth q = O -> roots q = [] /\ kids q = [].
Proof.
  unfold queue_depth.
  induction q as [| [| k v l r h] q IH]; cbn [fold_right depth roots kids];
    intros H; auto; lia.
Qed.

Lemma queue_depth_kids (q : list tree) :
  queue_depth (kids q) = Nat.pred (queue_depth q).
Proof.
  unfold queue_depth.
  induction q as [| [| k v l r h] q IH]; cbn [fold_right depth kids]; auto.
  rewrite IH. lia.
Qed.

Lemma bforder_loop_levels {S : Type} (visit : option (V -> S -> S)) (n : nat) :
  forall q keys s,
    (queue_depth q <= n)%nat ->
    fst (bforder_loop visit q keys s) = keys ++ queue_levels n q.
Proof.
  induction n as [| n IH]; intros q keys s Hd.
  - destruct (queue_depth_zero q) as [Hr Hk]; [lia |].
    destruct (bforder_loop_front visit q [] keys s) as (s' & Hs).
    cbn [kids app] in Hs. rewrite app_nil_r in Hs. rewrite Hs, Hk, Hr.
    simp bforder_loop. cbn. now rewrite !app_nil_r.
  - destruct (bforder_loop_front visit q [] keys s) as (s' & Hs).
    cbn [kids app] in Hs. rewrite app_nil_r in Hs. rewrite Hs.
    rewrite IH by (rewrite queue_depth_kids; lia).
    cbn [queue_levels]. now rewrite app_assoc.
Qed.

Lemma roots_level_0 (q : list tree) : roots q = flat_map (level_keys 0) q.
Proof.
  induction q as [| [| k v l r h] q IH]; cbn; auto. now rewrite IH.
Qed.

Lemma kids_level (d : nat) (q : list tree) :
  flat_map (level_keys d) (kids q) = flat_map (level_keys (S d)) q.
Proof.
  induction q as [| [| k v l r h] q IH]; cbn; auto.
  rewrite IH. now rewrite <- app_assoc.
Qed.

Lemma queue_levels_by_depth (n : nat) :
  forall q : list tree,
    queue_levels n q =
    List.concat (map (fun d => flat_map (level_keys d) q) (seq 0 n)).
Proof.
  induction n as [| n IH]; intros q; [reflexivity |].
  cbn [queue_levels seq map List.concat].
  rewrite IH, roots_level_0. f_equal.
  rewrite <- seq_shift, map_map. f_equal.
  apply map_ext. intros d. apply kids_level.
Qed.

End Traversals.

(** ** Sequences of calls keep the invariants *)

Section CallLemmas.

Context {V : Type}.

Lemma apply_call_avl (self : AVLTree V) (c : call V) :
  avl (_root self) ->
  exists self', apply_call self c = Some self' /\ avl (_root self').
Proof.
  intros H. destruct c as [key value | key | key | | |]; cbn; eauto.
  - unfold insert. destruct (insert_avl (_root self) key value H) as (t' & -> & H' & _).
    cbn. eauto.
  - unfold delete. destruct (delete_avl (_root self) H key) as (t' & -> & H' & _).
    cbn. eauto.
Qed.

Lemma run_avl (calls : list (call V)) :
  forall self, avl (_root self) ->
  exists self', run self calls = Some self' /\ avl (_root self').
Proof.
  induction calls as [| c rest IH]; intros self H; cbn [run]; eauto.
  destruct (apply_call_avl self c H) as (self1 & -> & H1). cbn [bind]. auto.
Qed.

Lemma insert_all_avl (items : list (Z * V)) :
  forall self, avl (_root self) ->
  exists self', insert_all self items = Some self' /\ avl (_root self').
Proof.
  induction items as [| [key value] rest IH]; intros self H; cbn [insert_all]; eauto.
  destruct (apply_call_avl self (CallInsert key value) H) as (self1 & H1 & A1).
  cbn [apply_call] in H1. rewrite H1. cbn [bind]. auto.
Qed.

Lemma init_avl (starting_sequence : list (Z * V)) :
  exists self, init starting_sequence = Some self /\ avl (_root self).
Proof.
  apply insert_all_avl. cbn. unfold avl. cbn. auto.
Qed.

(** Every tree built by the constructor and any later calls exists (no call
    raises) and satisfies both structural invariants. *)
Lemma reachable_avl (starting_sequence : list (Z * V)) (calls : list (call V)) :
  exists t0 t,
    init starting_sequence = Some t0 /\ run t0 calls = Some t /\ avl (_root t).
Proof.
  destruct (init_avl starting_sequence) as (t0 & H0 & A0).
  destruct (run_avl calls t0 A0) as (t & Ht & At).
  eauto.
Qed.

End CallLemmas.

(** ** Properties of the public interface *)

Section Properties.

Context {V : Type}.

Local Abbreviation tree := (AVLNode V).

(** Every insertion adds a node: the size grows by one even when the key is
    already stored. *)
Lemma insert_size (self self' : AVLTree V) (key : Z) (value : V) :
  insert self key value = Some self' -> size self' = size self + 1.
Proof.
  unfold insert, size. intros H. apply bind_Some in H.
  destruct H as (r & Hr & H). inversion H; subst. cbn [_root].
  apply insert_elements in Hr. apply (Permutation_map fst) in Hr.
  apply Permutation_length in Hr. rewrite !_size_length.
  unfold keys_of. rewrite Hr. cbn [map List.length]. lia.
Qed.

(** Without insertions of keys already present, every deletion and insertion
    keeps the search-tree order. *)
Lemma bst_after_fresh_calls (calls : list (call V)) :
  forall self t,
    bst (_root self) -> fresh_inserts self calls ->
    run self calls = Some t -> bst (_root t).
Proof.
  induction calls as [| c rest IH]; intros self t Hb Hf Hrun.
  - cbn in Hrun. inversion Hrun; subst. exact Hb.
  - cbn [run] in Hrun. apply bind_Some in Hrun.
    destruct Hrun as (self1 & H1 & Hrun).
    destruct Hf as [Hc Hf]. rewrite H1 in Hf.
    apply (IH self1 t); auto.
    destruct c as [key value | key | key | | |]; cbn [apply_call] in H1;
      try (inversion H1; subst; exact Hb).
    + unfold insert in H1. apply bind_Some in H1.
      destruct H1 as (r & Hr & H1). inversion H1; subst. cbn [_root].
      rewrite inorder_keys in Hc. eapply insert_fresh_bst; eauto.
    + unfold delete in H1. apply bind_Some in H1.
      destruct H1 as (r & Hr & H1). inversion H1; subst. cbn [_root].
      eapply delete_bst; eauto.
Qed.

(** C3: after the constructor and any sequence of public calls, no call has
    raised and every node has a balance factor (cached height of the left
    child minus cached height of the right child, an absent child counting
    0) between -1 and 1. *)
Theorem balance_invariant_after_calls
    (starting_sequence : list (Z * V)) (calls : list (call V)) :
  exists t0 t,
    init starting_sequence = Some t0 /\ run t0 calls = Some t /\
    balanced (_root t).
Proof.
  destruct (reachable_avl starting_sequence calls) as (t0 & t & H0 & Ht & _ & Hb).
  eauto.
Qed.

(** C4: after the constructor and any sequence of public calls, the cached
    height of every node is the height computed from the shape of its
    subtree (leaf 1, absent child 0). *)
Theorem height_cache_after_calls
    (starting_sequence : list (Z * V)) (calls : list (call V)) :
  exists t0 t,
    init starting_sequence = Some t0 /\ run t0 calls = Some t /\
    heights_ok (_root t).
Proof.
  destruct (reachable_avl starting_sequence calls) as (t0 & t & H0 & Ht & Hh & _).
  eauto.
Qed.

Lemma _delete_absent (t : tree) (key : Z) :
  avl t -> ~ In key (keys_of t) -> _delete t key = Some t.
Proof.
  induction t as [| k v l IHl r IHr h]; intros Ht Hn; [reflexivity |].
  apply avl_node in Ht. destruct Ht as (Al & Ar & Hh & Hb).
  rewrite keys_of_node, in_app_iff in Hn. cbn [In] in Hn.
  assert (Hid : rebalance (Node k v l r h) = Some (Node k v l r h)).
  { destruct (rebalance_spec k v l r h Al Ar) as (t' & -> & _ & _ & _ & Hid); [lia |].
    rewrite (Hid Hb), <- Hh. reflexivity. }
  cbn [_delete]. rewrite Z.gtb_ltb.
  destruct (Z.ltb_spec key k) as [Hk | Hk].
  - rewrite IHl by tauto. exact Hid.
  - destruct (Z.ltb_spec k key) as [Hk' | Hk'].
    + rewrite IHr by tauto. exact Hid.
    + exfalso. apply Hn. right. left. lia.
Qed.

(** C5: on a tree whose cached heights are coherent and whose nodes are
    balanced, deleting a key that no node holds returns the very same tree:
    same shape, keys, values and cached heights. *)
Theorem delete_absent_key_noop (self : AVLTree V) (key : Z) :
  heights_ok (_root self) -> balanced (_root self) ->
  ~ In key (inorder self) ->
  delete self key = Some self.
Proof.
  intros Hh Hb Hn. rewrite inorder_keys in Hn. unfold delete.
  rewrite _delete_absent by (unfold avl; auto).
  destruct self. reflexivity.
Qed.

(** X22: in a coherent, balanced tree with the unique-key search-tree
    property, deleting the key of a node with two children takes the
    leftmost node of the right subtree, whose pair is the first of that
    subtree in order, removes exactly that pair from the right subtree and
    puts it in place of the deleted node's key and value before
    rebalancing.  On the tree built from 5,3,8,1,4,7,9, [delete(3)] leaves
    the in-order keys 1,4,5,7,8,9 and a balanced tree. *)
Theorem delete_two_children_uses_successor :
  (forall (k : Z) (v : V) (l r : tree) (h : Z),
     l <> Absent -> r <> Absent ->
     exists sk sv sl sr sh rest,
       _min_value_node r = Some (Node sk sv sl sr sh) /\
       elements r = (sk, sv) :: rest /\
       _delete (Node k v l r h) k =
         (r' <- _delete r sk ;; rebalance (Node sk sv l r' h)) /\
       (avl (Node k v l r h) -> bst (Node k v l r h) ->
        exists r' t',
          _delete r sk = Some r' /\ elements r' = rest /\
          _delete (Node k v l r h) k = Some t' /\
          elements t' = elements l ++ (sk, sv) :: rest)) /\
  (forall v5 v3 v8 v1 v4 v7 v9 : V,
     exists t t',
       init [(5, v5); (3, v3); (8, v8); (1, v1); (4, v4); (7, v7); (9, v9)] = Some t /\
       delete t 3 = Some t' /\
       inorder t' = [1; 4; 5; 7; 8; 9] /\
       balanced (_root t')).
Proof.
  split.
  - intros k v l r h Hl Hr.
    destruct (min_value_node_present r Hr) as (sk & sv & sl & sr & sh & Hmin).
    destruct (min_value_node_head _ _ _ _ _ _ Hmin) as (rest & Hrest).
    assert (Hstep : _delete (Node k v l r h) k =
                    (r' <- _delete r sk ;; rebalance (Node sk sv l r' h))).
    { cbn [_delete]. rewrite Z.gtb_ltb, Z.ltb_irrefl.
      destruct l as [| lk lv ll lr lh]; [congruence |].
      destruct r as [| rk rv rl rr rh]; [congruence |].
      rewrite Hmin. reflexivity. }
    exists sk, sv, sl, sr, sh, rest. split_all; auto.
    intros Havl Hbst.
    apply avl_node in Havl. destruct Havl as (Al & Ar & Hh & Hb).
    destruct Hbst as (Hlt & Hgt & Hbl & Hbr).
    destruct (delete_avl r Ar sk) as (r' & Hr' & Ar' & Hbound).
    destruct (rebalance_spec sk sv l r' h Al Ar') as (t' & Ht' & _); [lia |].
    pose proof (delete_min_elements _ _ _ _ _ _ _ Hbr Hmin Hr') as He.
    rewrite Hrest in He. inversion He as [He'].
    exists r', t'. split_all; auto.
    + rewrite Hstep, Hr'. exact Ht'.
    + apply rebalance_elements in Ht'. rewrite Ht'. reflexivity.
  - intros. do 2 eexists. split_all; try reflexivity.
    cbn. split_all; auto; lia.
Qed.

(** C7: a right rotation of a node whose left child is present returns,
    keeps the key/value sequence and hence the in-order keys, and keeps the
    search-tree order; likewise a left rotation of a node whose right child
    is present. *)
Theorem rotations_preserve_order (k : Z) (v : V) (l r : tree) (h : Z) :
  (l <> Absent ->
   exists t',
     rotate_right (Node k v l r h) = Some t' /\
     elements t' = elements (Node k v l r h) /\
     inorder (mkAVLTree t') = inorder (mkAVLTree (Node k v l r h)) /\
     (bst (Node k v l r h) -> bst t')) /\
  (r <> Absent ->
   exists t',
     rotate_left (Node k v l r h) = Some t' /\
     elements t' = elements (Node k v l r h) /\
     inorder (mkAVLTree t') = inorder (mkAVLTree (Node k v l r h)) /\
     (bst (Node k v l r h) -> bst t')).
Proof.
  split.
  - intros Hl. destruct l as [| lk lv ll lr lh]; [congruence |].
    eexists. split; [reflexivity |].
    match goal with |- elements ?t = _ /\ _ =>
      assert (He : elements t = elements (Node k v (Node lk lv ll lr lh) r h))
        by (now apply rotate_right_elements)
    end.
    split_all; auto.
    + rewrite !inorder_keys. unfold keys_of. cbn [_root]. now rewrite He.
    + now apply bst_same_elements.
  - intros Hr. destruct r as [| rk rv rl rr rh]; [congruence |].
    eexists. split; [reflexivity |].
    match goal with |- elements ?t = _ /\ _ =>
      assert (He : elements t = elements (Node k v l (Node rk rv rl rr rh) h))
        by (now apply rotate_left_elements)
    end.
    split_all; auto.
    + rewrite !inorder_keys. unfold keys_of. cbn [_root]. now rewrite He.
    + now apply bst_same_elements.
Qed.

(** C8: [bforder()] returns the keys level by level, left to right inside a
    level; the loop drops a dequeued absent child without output, and for a
    dequeued node it outputs the key and enqueues both child slots, absent
    or not.  On root 20 with children 10 and 30 the result is 20,10,30. *)
Theorem bforder_level_order :
  (forall self : AVLTree V,
     bforder self =
     List.concat (map (fun d => level_keys d (_root self))
                      (seq 0 (depth (_root self))))) /\
  (forall (S : Type) (visit : option (V -> S -> S)) q keys s,
     bforder_loop visit (Absent :: q) keys s = bforder_loop visit q keys s) /\
  (forall (S : Type) (visit : option (V -> S -> S)) k v l r h q keys s,
     bforder_loop visit (Node k v l r h :: q) keys s =
     bforder_loop visit (q ++ [l; r]) (keys ++ [k]) (call_visit visit v s)) /\
  (forall v20 v10 v30 : V,
     bforder (mkAVLTree (Node 20 v20 (Node 10 v10 Absent Absent 1)
                                      (Node 30 v30 Absent Absent 1) 2))
     = [20; 10; 30]).
Proof.
  split_all.
  - intros [t]. unfold bforder, bforder_with. cbn [_root].
    rewrite (bforder_loop_levels _ (depth t)).
    + cbn [app]. rewrite queue_levels_by_depth. f_equal.
      apply map_ext. intros d. cbn. now rewrite app_nil_r.
    + cbn. lia.
  - intros. now simp bforder_loop.
  - intros. now simp bforder_loop.
  - intros. unfold bforder, bforder_with. cbn [_root].
    now simp bforder_loop.
Qed.

(** C9: [size()] is the length of the list [inorder()] returns, for every
    tree, duplicated keys included. *)
Theorem size_is_inorder_length (self : AVLTree V) :
  size self = Z.of_nat (List.length (inorder self)).
Proof.
  rewrite inorder_keys. apply _size_length.
Qed.

(** C10: on a node with coherent cached heights, a balance factor above 1
    means the left child is present and one below -1 means the right child
    is present; every child access in [balance] and in the rotations it
    calls then finds a node, so [balance] returns. *)
Theorem balance_never_fails (k : Z) (v : V) (l r : tree) (h bf : Z) :
  heights_ok (Node k v l r h) ->
  balance_factor (Node k v l r h) = Some bf ->
  (bf > 1 -> l <> Absent) /\
  (bf < -1 -> r <> Absent) /\
  exists t', balance (Node k v l r h) = Some t'.
Proof.
  intros (Hl & Hr & _) Hbf. cbn in Hbf. inversion Hbf as [Ebf]. clear Hbf.
  pose proof (child_height_nonneg l Hl) as Nl.
  pose proof (child_height_nonneg r Hr) as Nr.
  split_all.
  - intros Hgt ->. cbn in *. lia.
  - intros Hlt ->. cbn in *. lia.
  - cbn [balance balance_factor bind]. rewrite Z.gtb_ltb.
    destruct (Z.ltb_spec 1 (child_height l - child_height r)) as [H1 | H1].
    + destruct l as [| lk lv ll lr lh]; [cbn in *; lia |].
      destruct Hl as (Hll & Hlr & _).
      pose proof (child_height_nonneg ll Hll).
      cbn [balance_factor bind].
      destruct (Z.ltb_spec (child_height ll - child_height lr) 0) as [H2 | H2].
      * destruct lr as [| mk mv ml mr mh]; [cbn in *; lia |].
        cbn. eauto.
      * cbn. eauto.
    + destruct (Z.ltb_spec (child_height l - child_height r) (-1)) as [H3 | H3];
        [| eauto].
      destruct r as [| rk rv rl rr rh]; [cbn in *; lia |].
      destruct Hr as (Hrl & Hrr & _).
      pose proof (child_height_nonneg rr Hrr).
      cbn [balance_factor bind]. rewrite Z.gtb_ltb.
      destruct (Z.ltb_spec 0 (child_height rl - child_height rr)) as [H4 | H4].
      * destruct rl as [| mk mv ml mr mh]; [cbn in *; lia |].
        cbn. eauto.
      * cbn. eauto.
Qed.

End Properties.

(** ** Scenarios *)

Ltac concrete := cbn; repeat split; try lia; try reflexivity.

(** Inserting 10, 20, 30 rotates left at 10. *)
Example insert_ascending_rotates_left :
  init [(10, "a"%string); (20, "b"%string); (30, "c"%string)]
  = Some (mkAVLTree three_nodes).
Proof. reflexivity. Qed.

(** Inserting 30, 20, 10 rotates right at 30. *)
Example insert_descending_rotates_right :
  option_map (fun t => (bforder t, child_height (_root t)))
    (init [(30, "a"%string); (20, "b"%string); (10, "c"%string)])
  = Some ([20; 10; 30], 2).
Proof. reflexivity. Qed.

(** Inserting 30, 10, 20 rotates left at 10 and then right at 30. *)
Example insert_zigzag_double_rotation :
  option_map (fun t => (bforder t, child_height (_root t)))
    (init [(30, "a"%string); (10, "b"%string); (20, "c"%string)])
  = Some ([20; 10; 30], 2).
Proof. reflexivity. Qed.

Example search_after_insert :
  option_map (fun t => (search t 10, search t 25))
    (init [(10, "a"%string); (20, "b"%string); (30, "c"%string)])
  = Some (Some "a"%string, None).
Proof. reflexivity. Qed.

(** C1: [insert(5, "a")] followed by [insert(5, "b")] does not overwrite:
    the second call adds a second node with key 5 to the right of the first,
    [search(5)] still returns "a" and the size goes from 1 to 2. *)
Theorem insert_same_key_adds_second_node :
  exists t1 t2 : AVLTree string,
    insert empty 5 "a"%string = Some t1 /\
    insert t1 5 "b"%string = Some t2 /\
    _root t2 = Node 5 "a"%string Absent (Node 5 "b"%string Absent Absent 1) 2 /\
    search t2 5 = Some "a"%string /\
    size t1 = 1 /\ size t2 = 2.
Proof.
  do 2 eexists. repeat split; reflexivity.
Qed.

(** C2: after inserting the key 5 twice, [inorder()] returns 5,5, which is
    not strictly ascending, and the root has an equal key in its right
    subtree, so the unique-key search-tree property does not hold. *)
Theorem insert_same_key_breaks_strict_order :
  exists t : AVLTree string,
    run empty [CallInsert 5 "a"%string; CallInsert 5 "b"%string] = Some t /\
    inorder t = [5; 5] /\
    ~ strictly_ascending (inorder t) /\
    ~ bst (_root t).
Proof.
  eexists. split; [reflexivity |]. split; [reflexivity |]. split.
  - intros H. inversion H as [| ? ? _ Hf]; subst. inversion Hf; subst. lia.
  - cbn. intros (_ & Hf & _). inversion Hf; subst. lia.
Qed.

Lemma delete_absent_key_noop_witness :
  heights_ok three_nodes /\ balanced three_nodes /\
  ~ In 25 (inorder (mkAVLTree three_nodes)) /\
  delete (mkAVLTree three_nodes) 25 = Some (mkAVLTree three_nodes).
Proof.
  assert (Hh : heights_ok three_nodes) by concrete.
  assert (Hb : balanced three_nodes) by concrete.
  assert (Hn : ~ In 25 (inorder (mkAVLTree three_nodes))).
  { vm_compute. intros [H | [H | [H | []]]]; discriminate. }
  split; [exact Hh |]. split; [exact Hb |]. split; [exact Hn |].
  exact (delete_absent_key_noop (mkAVLTree three_nodes) 25 Hh Hb Hn).
Defined.

Lemma delete_two_children_uses_successor_witness :
  avl three_nodes /\ bst three_nodes /\
  exists sk sv sl sr sh rest,
    _min_value_node (Node 30 "c"%string Absent Absent 1) = Some (Node sk sv sl sr sh) /\
    elements (Node 30 "c"%string Absent Absent 1) = (sk, sv) :: rest /\
    _delete three_nodes 20 =
      (r' <- _delete (Node 30 "c"%string Absent Absent 1) sk ;;
       rebalance (Node sk sv (Node 10 "a"%string Absent Absent 1) r' 2)) /\
    exists r' t',
      _delete (Node 30 "c"%string Absent Absent 1) sk = Some r' /\
      elements r' = rest /\
      _delete three_nodes 20 = Some t' /\
      elements t' = elements (Node 10 "a"%string Absent Absent 1) ++ (sk, sv) :: rest.
Proof.
  assert (Ha : avl three_nodes) by (unfold avl; concrete).
  assert (Hb : bst three_nodes).
  { cbn. repeat split; repeat constructor. }
  split; [exact Ha |]. split; [exact Hb |].
  assert (Hl : Node 10 "a"%string Absent Absent 1 <> Absent) by discriminate.
  assert (Hr : Node 30 "c"%string Absent Absent 1 <> Absent) by discriminate.
  destruct (proj1 (@delete_two_children_uses_successor string) 20 "b"%string
              _ _ 2 Hl Hr)
    as (sk & sv & sl & sr & sh & rest & Hmin & Hrest & Hstep & Hinv).
  exists sk, sv, sl, sr, sh, rest.
  split; [exact Hmin |]. split; [exact Hrest |]. split; [exact Hstep |].
  exact (Hinv Ha Hb).
Defined.

Lemma rotations_preserve_order_witness :
  (exists t',
     rotate_right three_nodes = Some t' /\
     elements t' = elements three_nodes /\
     inorder (mkAVLTree t') = inorder (mkAVLTree three_nodes) /\
     (bst three_nodes -> bst t')) /\
  (exists t',
     rotate_left three_nodes = Some t' /\
     elements t' = elements three_nodes /\
     inorder (mkAVLTree t') = inorder (mkAVLTree three_nodes) /\
     (bst three_nodes -> bst t')).
Proof.
  destruct (rotations_preserve_order 20 "b"%string
              (Node 10 "a"%string Absent Absent 1)
              (Node 30 "c"%string Absent Absent 1) 2) as [Hr Hl].
  split; [apply Hr | apply Hl]; discriminate.
Defined.

Lemma balance_never_fails_witness :
  heights_ok left_chain /\ balance_factor left_chain = Some 2 /\
  (2 > 1 -> Node 20 "b"%string (Node 10 "a"%string Absent Absent 1) Absent 2 <> Absent) /\
  (2 < -1 -> @Absent string <> Absent) /\
  exists t', balance left_chain = Some t'.
Proof.
  assert (Hh : heights_ok left_chain) by concrete.
  assert (Hf : balance_factor left_chain = Some 2) by reflexivity.
  split; [exact Hh |]. split; [exact Hf |].
  exact (balance_never_fails 30 "c"%string _ Absent 3 2 Hh Hf).
Defined.

(** ** Lookup *)

Section Lookup.

Context {V : Type}.

Local Abbreviation tree := (AVLNode V).

Lemma _search_sound (t : tree) (key : Z) (value : V) :
  _search t key = Some value -> In (key, value) (elements t).
Proof.
  induction t as [| k v l IHl r IHr h]; [discriminate |].
  cbn [_search elements]. rewrite in_app_iff. cbn [In].
  destruct (Z.eqb_spec key k) as [-> | Hne].
  - intros H. inversion H. auto.
  - destruct (key <? k); auto.
Qed.

Lemma _search_absent (t : tree) (key : Z) :
  ~ In key (keys_of t) -> _search t key = None.
Proof.
  intros Hn. destruct (_search t key) as [v |] eqn:E; [| reflexivity].
  exfalso. apply Hn. apply _search_sound in E.
  unfold keys_of. apply (in_map fst) in E. exact E.
Qed.

Lemma Forall_key_In (P : Z -> Prop) (t : tree) (key : Z) (value : V) :
  Forall P (keys_of t) -> In (key, value) (elements t) -> P key.
Proof.
  intros HF Hin. rewrite Forall_forall in HF. apply HF.
  unfold keys_of. apply (in_map fst) in Hin. exact Hin.
Qed.

Lemma _search_complete (t : tree) (key : Z) (value : V) :
  bst t -> In (key, value) (elements t) -> _search t key = Some value.
Proof.
  induction t as [| k v l IHl r IHr h]; intros Hb Hin; [contradiction |].
  destruct Hb as (Hlt & Hgt & Hbl & Hbr).
  cbn [elements] in Hin. rewrite in_app_iff in Hin. cbn [In] in Hin.
  cbn [_search].
  destruct Hin as [Hin | [Hin | Hin]].
  - pose proof (Forall_key_In _ _ _ _ Hlt Hin) as Hk. cbn in Hk.
    destruct (Z.eqb_spec key k); [lia |].
    destruct (Z.ltb_spec key k); [auto | lia].
  - inversion Hin; subst. now rewrite Z.eqb_refl.
  - pose proof (Forall_key_In _ _ _ _ Hgt Hin) as Hk. cbn in Hk.
    destruct (Z.eqb_spec key k); [lia |].
    destruct (Z.ltb_spec key k); [lia | auto].
Qed.

(** Two search trees that store the same pairs under [key] answer a search
    for [key] alike. *)
Lemma _search_same_pairs (t1 t2 : tree) (key : Z) :
  bst t1 -> bst t2 ->
  (forall value, In (key, value) (elements t1) <-> In (key, value) (elements t2)) ->
  _search t1 key = _search t2 key.
Proof.
  intros H1 H2 Hiff.
  destruct (_search t1 key) as [v1 |] eqn:E1.
  - symmetry. apply _search_complete; auto. apply Hiff. now apply _search_sound.
  - destruct (_search t2 key) as [v2 |] eqn:E2; [| reflexivity].
    apply _search_sound, Hiff in E2. apply (_search_complete _ _ _ H1) in E2.
    congruence.
Qed.

(** X1: a search for a key that no node holds returns nothing, whatever the
    shape of the tree. *)
Theorem search_missing_key (self : AVLTree V) (key : Z) :
  ~ In key (inorder self) -> search self key = None.
Proof.
  rewrite inorder_keys. apply _search_absent.
Qed.

(** What [_search] finds is a stored pair; in a search tree every stored
    pair is found. *)
Lemma search_finds_stored_pairs (self : AVLTree V) (key : Z) (value : V) :
  (search self key = Some value -> In (key, value) (elements (_root self))) /\
  (bst (_root self) ->
   (search self key = Some value <-> In (key, value) (elements (_root self)))).
Proof.
  split.
  - apply _search_sound.
  - intros Hb. split; [apply _search_sound | now apply _search_complete].
Qed.

(** X3: inserting a key that is not yet in a coherent, balanced search tree
    returns a search tree in which that key is found with the inserted
    value and every other key is found as before. *)
Theorem search_after_insert_fresh (self : AVLTree V) (key : Z) (value : V) :
  avl (_root self) -> bst (_root self) -> ~ In key (inorder self) ->
  exists self',
    insert self key value = Some self' /\
    bst (_root self') /\
    search self' key = Some value /\
    forall other, other <> key -> search self' other = search self other.
Proof.
  intros Ha Hb Hn. rewrite inorder_keys in Hn.
  destruct (insert_avl (_root self) key value Ha) as (t' & Ht' & _).
  exists (mkAVLTree t'). unfold insert, search. rewrite Ht'. cbn [bind _root].
  pose proof (insert_fresh_bst _ _ _ _ Ht' Hb Hn) as Hb'.
  pose proof (insert_elements _ _ _ _ Ht') as Hp.
  split_all; auto.
  - apply _search_complete; auto.
    apply (Permutation_in _ (Permutation_sym Hp)). now left.
  - intros other Hne. apply _search_same_pairs; auto.
    intros v. split; intros Hin.
    + apply (Permutation_in _ Hp) in Hin. destruct Hin as [Heq | Hin]; auto.
      inversion Heq. congruence.
    + apply (Permutation_in _ (Permutation_sym Hp)). now right.
Qed.

Lemma remove_key_In (key other : Z) (value : V) (xs : list (Z * V)) :
  In (other, value) (remove_key key xs) <-> In (other, value) xs /\ other <> key.
Proof.
  unfold remove_key. rewrite filter_In. cbn [fst].
  destruct (Z.eqb_spec other key); cbn; intuition congruence.
Qed.

(** X5: deleting a key from a coherent, balanced search tree returns a
    search tree in which that key is no longer found and every other key is
    found as before. *)
Theorem search_after_delete (self : AVLTree V) (key : Z) :
  avl (_root self) -> bst (_root self) ->
  exists self',
    delete self key = Some self' /\
    bst (_root self') /\
    search self' key = None /\
    forall other, other <> key -> search self' other = search self other.
Proof.
  intros Ha Hb.
  destruct (delete_avl (_root self) Ha key) as (t' & Ht' & _).
  exists (mkAVLTree t'). unfold delete, search. rewrite Ht'. cbn [bind _root].
  pose proof (delete_bst _ _ _ Hb Ht') as Hb'.
  pose proof (delete_elements _ Hb _ _ Ht') as He.
  split_all; auto.
  - destruct (_search t' key) as [v |] eqn:E; [| reflexivity].
    apply _search_sound in E. rewrite He in E. apply remove_key_In in E. tauto.
  - intros other Hne. apply _search_same_pairs; auto.
    intros v. rewrite He, remove_key_In. tauto.
Qed.

End Lookup.

(** ** Sizes and order *)

Section SizesAndOrder.

Context {V : Type}.

Local Abbreviation tree := (AVLNode V).

Lemma size_elements (self : AVLTree V) :
  size self = Z.of_nat (List.length (elements (_root self))).
Proof.
  unfold size. rewrite _size_length. unfold keys_of. now rewrite length_map.
Qed.

(** X4: on a coherent, balanced tree [insert] returns, and the new tree has
    one node more; its in-order keys are the old ones plus the inserted
    key, also when that key was already there. *)
Theorem insert_adds_one_node (self : AVLTree V) (key : Z) (value : V) :
  avl (_root self) ->
  exists self',
    insert self key value = Some self' /\
    size self' = size self + 1 /\
    Permutation (inorder self') (key :: inorder self).
Proof.
  intros Ha. destruct (insert_avl (_root self) key value Ha) as (t' & Ht' & _).
  exists (mkAVLTree t'). unfold insert. rewrite Ht'. cbn [bind].
  pose proof (insert_elements _ _ _ _ Ht') as Hp.
  split_all; auto.
  - rewrite !size_elements. cbn [_root].
    rewrite (Permutation_length Hp). cbn [List.length]. lia.
  - rewrite !inorder_keys. cbn [_root]. unfold keys_of.
    apply (Permutation_map fst) in Hp. exact Hp.
Qed.

Lemma remove_key_length (key : Z) (xs : list (Z * V)) :
  strictly_ascending (map fst xs) -> In key (map fst xs) ->
  S (List.length (remove_key key xs)) = List.length xs.
Proof.
  unfold strictly_ascending.
  induction xs as [| [a b] xs IH]; cbn [map fst In]; intros Hs Hin; [contradiction |].
  inversion Hs as [| ? ? Hs' Hgt]; subst.
  unfold remove_key. cbn [filter fst]. fold (remove_key key xs).
  destruct (Z.eqb_spec a key) as [-> | Hne]; cbn [negb List.length].
  - now rewrite remove_key_absent by now apply Forall_neq_gt.
  - rewrite IH; auto. destruct Hin; [contradiction | assumption].
Qed.

(** X6: deleting a key that a coherent, balanced search tree holds removes
    exactly one node, and the key is gone from the in-order keys. *)
Theorem delete_present_key (self : AVLTree V) (key : Z) :
  avl (_root self) -> bst (_root self) -> In key (inorder self) ->
  exists self',
    delete self key = Some self' /\
    size self' = size self - 1 /\
    ~ In key (inorder self').
Proof.
  intros Ha Hb Hin. rewrite inorder_keys in Hin.
  destruct (delete_avl (_root self) Ha key) as (t' & Ht' & _).
  exists (mkAVLTree t'). unfold delete. rewrite Ht'. cbn [bind].
  pose proof (delete_elements _ Hb _ _ Ht') as He.
  split_all; auto.
  - rewrite !size_elements. cbn [_root]. rewrite He.
    apply bst_ascending in Hb.
    pose proof (remove_key_length key _ Hb Hin). lia.
  - rewrite inorder_keys. cbn [_root]. unfold keys_of. rewrite He.
    intros Hk. apply in_map_iff in Hk. destruct Hk as ([a b] & Hfst & Hk).
    cbn in Hfst. subst a. apply remove_key_In in Hk. tauto.
Qed.

(** *** Non-decreasing order, duplicated keys included *)

Lemma ascending_le_app_cons (xs ys : list Z) (k : Z) :
  ascending (xs ++ k :: ys) <->
  ascending xs /\ ascending ys /\
  Forall (fun x => x <= k) xs /\ Forall (fun x => k <= x) ys.
Proof.
  unfold ascending. induction xs as [| a xs IH]; cbn.
  - split.
    + intros H. inversion H; subst. split_all; auto; constructor.
    + intros (_ & Hys & _ & Hk). now constructor.
  - split.
    + intros H. inversion H as [| ? ? Hs Ha]; subst.
      apply IH in Hs. destruct Hs as (Hxs & Hys & Hlt & Hgt).
      apply Forall_app in Ha. destruct Ha as [Ha1 Ha2].
      split_all; auto.
      * now constructor.
      * constructor; auto. now inversion Ha2.
    + intros (Hxs & Hys & Hlt & Hgt).
      inversion Hxs as [| ? ? Hs Ha]; subst. inversion Hlt; subst.
      constructor.
      * apply IH. auto.
      * apply Forall_app. split; auto. constructor; auto.
        eapply Forall_impl; [| exact Hgt]. cbn. intros; lia.
Qed.

Lemma rebalance_keys (n t' : tree) :
  rebalance n = Some t' -> keys_of t' = keys_of n.
Proof.
  intros H. unfold keys_of. now rewrite (rebalance_elements _ _ H).
Qed.

Lemma insert_ascending (t : tree) (key : Z) (value : V) (t' : tree) :
  _insert t key value = Some t' ->
  ascending (keys_of t) -> ascending (keys_of t').
Proof.
  revert t'. induction t as [| k v l IHl r IHr h]; intros t' H Hs.
  - cbn in H. inversion H. cbn. repeat constructor.
  - rewrite keys_of_node, ascending_le_app_cons in Hs.
    destruct Hs as (Hsl & Hsr & Hle & Hge).
    cbn [_insert] in H. destruct (Z.ltb_spec key k) as [Hk | Hk].
    + apply bind_Some in H. destruct H as (l' & Hl' & H).
      rewrite (rebalance_keys _ _ H), keys_of_node, ascending_le_app_cons.
      split_all; eauto.
      apply insert_elements in Hl'.
      apply (Permutation_map fst), Permutation_sym in Hl'.
      apply (Permutation_Forall Hl'). constructor; auto. cbn. lia.
    + apply bind_Some in H. destruct H as (r' & Hr' & H).
      rewrite (rebalance_keys _ _ H), keys_of_node, ascending_le_app_cons.
      split_all; eauto.
      apply insert_elements in Hr'.
      apply (Permutation_map fst), Permutation_sym in Hr'.
      apply (Permutation_Forall Hr'). constructor; auto.
Qed.

Lemma min_value_node_key_head (t : tree) (sk : Z) (sv : V) (sl sr : tree) (sh : Z) :
  _min_value_node t = Some (Node sk sv sl sr sh) ->
  exists rest, keys_of t = sk :: rest.
Proof.
  intros H. destruct (min_value_node_head _ _ _ _ _ _ H) as (rest & Hrest).
  exists (map fst rest). unfold keys_of. now rewrite Hrest.
Qed.

(** Deletion never brings in a key that was not there. *)
Lemma delete_keys_incl (t : tree) :
  forall key t' (P : Z -> Prop),
    _delete t key = Some t' -> Forall P (keys_of t) -> Forall P (keys_of t').
Proof.
  induction t as [| k v l IHl r IHr h]; intros key t' P H HP.
  - cbn in H. inversion H; subst. exact HP.
  - rewrite keys_of_node in HP. apply Forall_app in HP. destruct HP as [HPl HPk].
    inversion HPk as [| ? ? Hk HPr]; subst.
    cbn [_delete] in H.
    destruct (key <? k).
    + apply bind_Some in H. destruct H as (l' & Hl' & H).
      rewrite (rebalance_keys _ _ H), keys_of_node.
      apply Forall_app. split; eauto.
    + destruct (key >? k).
      * apply bind_Some in H. destruct H as (r' & Hr' & H).
        rewrite (rebalance_keys _ _ H), keys_of_node.
        apply Forall_app. split; eauto.
      * destruct l as [| lk lv ll lr lh]; [inversion H; subst; exact HPr |].
        destruct r as [| rk rv rl rr rh]; [inversion H; subst; exact HPl |].
        remember (Node rk rv rl rr rh) as rn eqn:Ern. clear Ern.
        apply bind_Some in H. destruct H as (temp & Htemp & H).
        destruct temp as [| sk sv sl sr sh]; [discriminate |].
        apply bind_Some in H. destruct H as (r' & Hr' & H).
        rewrite (rebalance_keys _ _ H), keys_of_node.
        destruct (min_value_node_key_head _ _ _ _ _ _ Htemp) as (rest & Hrest).
        apply Forall_app. split; auto. constructor; eauto.
        rewrite Hrest in HPr. now inversion HPr.
Qed.

Lemma delete_ascending (t : tree) :
  forall key t',
    _delete t key = Some t' -> ascending (keys_of t) -> ascending (keys_of t').
Proof.
  induction t as [| k v l IHl r IHr h]; intros key t' H Hs.
  - cbn in H. inversion H; subst. exact Hs.
  - rewrite keys_of_node, ascending_le_app_cons in Hs.
    destruct Hs as (Hsl & Hsr & Hle & Hge).
    cbn [_delete] in H.
    destruct (key <? k).
    + apply bind_Some in H. destruct H as (l' & Hl' & H).
      rewrite (rebalance_keys _ _ H), keys_of_node, ascending_le_app_cons.
      split_all; eauto. eapply delete_keys_incl; eauto.
    + destruct (key >? k).
      * apply bind_Some in H. destruct H as (r' & Hr' & H).
        rewrite (rebalance_keys _ _ H), keys_of_node, ascending_le_app_cons.
        split_all; eauto. eapply delete_keys_incl; eauto.
      * destruct l as [| lk lv ll lr lh]; [inversion H; subst; exact Hsr |].
        destruct r as [| rk rv rl rr rh]; [inversion H; subst; exact Hsl |].
        remember (Node rk rv rl rr rh) as rn eqn:Ern. clear Ern.
        remember (Node lk lv ll lr lh) as ln eqn:Eln. clear Eln.
        apply bind_Some in H. destruct H as (temp & Htemp & H).
        destruct temp as [| sk sv sl sr sh]; [discriminate |].
        apply bind_Some in H. destruct H as (r' & Hr' & H).
        rewrite (rebalance_keys _ _ H), keys_of_node, ascending_le_app_cons.
        destruct (min_value_node_key_head _ _ _ _ _ _ Htemp) as (rest & Hrest).
        assert (Hsk : k <= sk).
        { rewrite Hrest in Hge. now inversion Hge. }
        assert (Hmin : Forall (fun x => sk <= x) (keys_of rn)).
        { rewrite Hrest in *. inversion Hsr; subst. constructor; [lia | assumption]. }
        split_all; eauto.
        -- eapply Forall_impl; [| exact Hle]. cbn. intros; lia.
        -- eapply delete_keys_incl; eauto.
Qed.

Lemma apply_call_ascending (self self' : AVLTree V) (c : call V) :
  apply_call self c = Some self' ->
  ascending (keys_of (_root self)) -> ascending (keys_of (_root self')).
Proof.
  destruct c as [key value | key | key | | |]; cbn [apply_call]; intros H Hs;
    try (inversion H; subst; exact Hs).
  - unfold insert in H. apply bind_Some in H. destruct H as (r & Hr & H).
    inversion H; subst. cbn [_root]. eapply insert_ascending; eauto.
  - unfold delete in H. apply bind_Some in H. destruct H as (r & Hr & H).
    inversion H; subst. cbn [_root]. eapply delete_ascending; eauto.
Qed.

Lemma run_ascending (calls : list (call V)) :
  forall self t,
    run self calls = Some t ->
    ascending (keys_of (_root self)) -> ascending (keys_of (_root t)).
Proof.
  induction calls as [| c rest IH]; intros self t H Hs.
  - cbn in H. inversion H; subst. exact Hs.
  - cbn [run] in H. apply bind_Some in H. destruct H as (self1 & H1 & H).
    eapply IH; eauto. eapply apply_call_ascending; eauto.
Qed.

Lemma insert_all_run (items : list (Z * V)) :
  forall self,
    insert_all self items = run self (map (fun p => CallInsert (fst p) (snd p)) items).
Proof.
  induction items as [| [key value] rest IH]; intros self; [reflexivity |].
  cbn [insert_all map run apply_call fst snd].
  destruct (insert self key value) as [self1 |]; cbn [bind]; auto.
Qed.

(** X7: after the constructor and any sequence of public calls, [inorder()]
    returns the keys in non-decreasing order, also when keys were inserted
    more than once. *)
Theorem inorder_never_descends
    (starting_sequence : list (Z * V)) (calls : list (call V)) :
  exists t0 t,
    init starting_sequence = Some t0 /\ run t0 calls = Some t /\
    ascending (inorder t).
Proof.
  destruct (reachable_avl starting_sequence calls) as (t0 & t & H0 & Ht & _).
  exists t0, t. split_all; auto.
  rewrite inorder_keys. apply (run_ascending calls t0 t Ht).
  unfold init in H0. rewrite insert_all_run in H0.
  apply (run_ascending _ empty t0 H0). cbn. constructor.
Qed.

(** X8: a sequence of calls on the empty tree in which no [insert] uses a
    key the tree holds at that moment returns a tree with the search-tree
    property, whose in-order keys are strictly ascending. *)
Theorem fresh_calls_keep_search_tree (calls : list (call V)) :
  fresh_inserts empty calls ->
  exists t,
    run empty calls = Some t /\ bst (_root t) /\ strictly_ascending (inorder t).
Proof.
  intros Hf.
  assert (Ha : avl (_root (@empty V))) by (unfold avl; cbn; auto).
  destruct (run_avl calls empty Ha) as (t & Ht & _).
  assert (Hb : bst (_root t)).
  { apply (bst_after_fresh_calls calls empty t); auto. exact I. }
  exists t. split_all; auto.
  rewrite inorder_keys. now apply bst_ascending.
Qed.

End SizesAndOrder.

(** ** Construction from a starting sequence *)

Section Construction.

Context {V : Type}.

Local Abbreviation tree := (AVLNode V).

Lemma insert_all_fresh (items : list (Z * V)) :
  forall self,
    avl (_root self) -> bst (_root self) ->
    NoDup (map fst items) ->
    (forall k, In k (map fst items) -> ~ In k (keys_of (_root self))) ->
    exists self',
      insert_all self items = Some self' /\
      bst (_root self') /\
      Permutation (elements (_root self')) (items ++ elements (_root self)).
Proof.
  induction items as [| [key value] rest IH]; intros self Ha Hb Hnd Hfresh.
  - exists self. cbn. auto.
  - cbn [map fst] in Hnd, Hfresh. inversion Hnd as [| ? ? Hnin Hnd']; subst.
    destruct (insert_avl (_root self) key value Ha) as (t1 & Ht1 & Ha1 & _).
    assert (Hb1 : bst t1).
    { eapply insert_fresh_bst; eauto. apply Hfresh. now left. }
    pose proof (insert_elements _ _ _ _ Ht1) as Hp1.
    destruct (IH (mkAVLTree t1) Ha1 Hb1 Hnd') as (self' & Hrun & Hb' & Hp').
    { intros k Hk Hin. cbn [_root] in Hin. unfold keys_of in Hin.
      apply (Permutation_in _ (Permutation_map fst Hp1)) in Hin.
      cbn [map fst] in Hin. destruct Hin as [<- | Hin]; [contradiction |].
      apply (Hfresh k); auto. now right. }
    exists self'. cbn [insert_all]. unfold insert. rewrite Ht1. cbn [bind].
    split_all; auto.
    cbn [_root] in Hp'. rewrite Hp', Hp1. cbn [app].
    symmetry. apply Permutation_middle.
Qed.

(** X9: constructing a tree from a sequence of pairs with pairwise distinct
    keys returns a tree that holds exactly these pairs: its size is the
    length of the sequence, [inorder()] is the strictly ascending
    rearrangement of the keys, and every pair is found by [search]. *)
Theorem init_distinct_keys (starting_sequence : list (Z * V)) :
  NoDup (map fst starting_sequence) ->
  exists self,
    init starting_sequence = Some self /\
    size self = Z.of_nat (List.length starting_sequence) /\
    Permutation (inorder self) (map fst starting_sequence) /\
    strictly_ascending (inorder self) /\
    forall key value, In (key, value) starting_sequence -> search self key = Some value.
Proof.
  intros Hnd.
  destruct (insert_all_fresh starting_sequence empty) as (self & Hinit & Hb & Hp);
    auto.
  { unfold avl. cbn. auto. }
  { exact I. }
  cbn [_root empty elements] in Hp. rewrite app_nil_r in Hp.
  exists self. split_all; auto.
  - rewrite size_elements. now rewrite (Permutation_length Hp).
  - rewrite inorder_keys. unfold keys_of. now apply Permutation_map.
  - rewrite inorder_keys. now apply bst_ascending.
  - intros key value Hin. apply _search_complete; auto.
    apply (Permutation_in _ (Permutation_sym Hp)). exact Hin.
Qed.

End Construction.

(** ** Depth-first traversals with a callback *)

Section Callbacks.

Context {V : Type}.

Local Abbreviation tree := (AVLNode V).

Lemma visit_all_app {S : Type} (visit : option (V -> S -> S))
    (ps qs : list (Z * V)) (s : S) :
  visit_all visit (ps ++ qs) s = visit_all visit qs (visit_all visit ps s).
Proof. unfold visit_all. apply fold_left_app. Qed.

Lemma _preorder_spec {S : Type} (t : tree) (visit : option (V -> S -> S)) :
  forall keys s,
    _preorder t visit keys s =
    (keys ++ map fst (preorder_elements t), visit_all visit (preorder_elements t) s).
Proof.
  induction t as [| k v l IHl r IHr h]; intros keys s.
  - cbn. now rewrite app_nil_r.
  - cbn [_preorder preorder_elements]. rewrite IHl, IHr.
    cbn [map fst]. rewrite map_app.
    change ((k, v) :: preorder_elements l ++ preorder_elements r)
      with ([(k, v)] ++ preorder_elements l ++ preorder_elements r).
    rewrite !visit_all_app. f_equal. app_norm.
Qed.

Lemma _postorder_spec {S : Type} (t : tree) (visit : option (V -> S -> S)) :
  forall keys s,
    _postorder t visit keys s =
    (keys ++ map fst (postorder_elements t), visit_all visit (postorder_elements t) s).
Proof.
  induction t as [| k v l IHl r IHr h]; intros keys s.
  - cbn. now rewrite app_nil_r.
  - cbn [_postorder postorder_elements]. rewrite IHl, IHr.
    rewrite !map_app, !visit_all_app. cbn [map fst]. f_equal. app_norm.
Qed.

Lemma _inorder_spec {S : Type} (t : tree) (visit : option (V -> S -> S)) :
  forall keys s,
    _inorder t visit keys s =
    (keys ++ map fst (elements t), visit_all visit (elements t) s).
Proof.
  intros keys s.
  rewrite (surjective_pairing (_inorder t visit keys s)).
  rewrite _inorder_keys, _inorder_visits. reflexivity.
Qed.

(** The depth-first traversals in terms of their visiting orders, for an
    argument that has gone through the test [if visit:]. *)
Lemma depth_first_callbacks (S : Type) (self : AVLTree V)
    (visit : option (V -> S -> S)) (s : S) :
  inorder_with self visit s =
    (map fst (elements (_root self)), visit_all visit (elements (_root self)) s) /\
  preorder_with self visit s =
    (map fst (preorder_elements (_root self)),
     visit_all visit (preorder_elements (_root self)) s) /\
  postorder_with self visit s =
    (map fst (postorder_elements (_root self)),
     visit_all visit (postorder_elements (_root self)) s).
Proof.
  unfold inorder_with, preorder_with, postorder_with.
  rewrite _inorder_spec, _preorder_spec, _postorder_spec. auto.
Qed.

Lemma preorder_elements_perm (t : tree) :
  Permutation (preorder_elements t) (elements t).
Proof.
  induction t as [| k v l IHl r IHr h]; cbn; [constructor |].
  rewrite IHl, IHr. apply Permutation_middle.
Qed.

Lemma postorder_elements_perm (t : tree) :
  Permutation (postorder_elements t) (elements t).
Proof.
  induction t as [| k v l IHl r IHr h]; cbn; [constructor |].
  rewrite IHl, IHr. apply Permutation_app_head.
  change ((k, v) :: elements r) with ([(k, v)] ++ elements r).
  apply Permutation_app_comm.
Qed.

(** X11: [preorder()] and [postorder()] return the same keys as
    [inorder()] in another order; on a non-empty tree [preorder()] starts
    with the root key and [postorder()] ends with it. *)
Theorem preorder_postorder_keys (self : AVLTree V) :
  Permutation (fst (preorder_with self (None : option (V -> unit -> unit)) tt))
              (inorder self) /\
  Permutation (fst (postorder_with self (None : option (V -> unit -> unit)) tt))
              (inorder self) /\
  (forall k v l r h, _root self = Node k v l r h ->
     exists front back,
       fst (preorder_with self (None : option (V -> unit -> unit)) tt) = k :: back /\
       fst (postorder_with self (None : option (V -> unit -> unit)) tt) = front ++ [k]).
Proof.
  unfold preorder_with, postorder_with.
  rewrite _preorder_spec, _postorder_spec, inorder_keys. cbn [fst app].
  unfold keys_of. split_all.
  - apply Permutation_map, preorder_elements_perm.
  - apply Permutation_map, postorder_elements_perm.
  - intros k v l r h ->. cbn [preorder_elements postorder_elements map fst].
    exists (map fst (postorder_elements l ++ postorder_elements r)),
           (map fst (preorder_elements l ++ preorder_elements r)).
    split; [reflexivity |].
    rewrite app_assoc, map_app. reflexivity.
Qed.

End Callbacks.

(** ** Breadth-first traversal: contents and callback *)

Section BreadthFirst.

Context {V : Type}.

Local Abbreviation tree := (AVLNode V).

Lemma root_pairs_keys (q : list tree) : map fst (root_pairs q) = roots q.
Proof.
  induction q as [| [| k v l r h] q IH]; cbn; auto. now rewrite IH.
Qed.

Lemma bforder_loop_front_pairs {S : Type} (visit : option (V -> S -> S))
    (q : list tree) :
  forall p keys s,
    bforder_loop visit (q ++ kids p) keys s =
    bforder_loop visit (kids (p ++ q)) (keys ++ roots q)
                 (visit_all visit (root_pairs q) s).
Proof.
  induction q as [| [| k v l r h] q IH]; intros p keys s.
  - cbn. now rewrite !app_nil_r.
  - cbn [app roots root_pairs]. simp bforder_loop.
    rewrite IH. now rewrite !kids_app.
  - cbn [app roots root_pairs]. simp bforder_loop.
    replace ((q ++ kids p) ++ [l; r])
      with (q ++ kids (p ++ [Node k v l r h])).
    2: { rewrite kids_app. cbn. now rewrite app_assoc. }
    rewrite IH. f_equal.
    + now rewrite <- app_assoc.
    + now rewrite <- app_assoc.
Qed.

Lemma bforder_loop_level_pairs {S : Type} (visit : option (V -> S -> S)) (n : nat) :
  forall q keys s,
    (queue_depth q <= n)%nat ->
    bforder_loop visit q keys s =
    (keys ++ map fst (queue_level_pairs n q),
     visit_all visit (queue_level_pairs n q) s).
Proof.
  induction n as [| n IH]; intros q keys s Hd.
  - destruct (queue_depth_zero q) as [Hr Hk]; [lia |].
    pose proof (bforder_loop_front_pairs visit q [] keys s) as Hs.
    cbn [kids app] in Hs. rewrite app_nil_r in Hs. rewrite Hs, Hk, Hr.
    assert (Hp : root_pairs q = []).
    { pose proof (root_pairs_keys q) as E. rewrite Hr in E.
      destruct (root_pairs q); [reflexivity | discriminate]. }
    rewrite Hp. simp bforder_loop. reflexivity.
  - pose proof (bforder_loop_front_pairs visit q [] keys s) as Hs.
    cbn [kids app] in Hs. rewrite app_nil_r in Hs. rewrite Hs.
    rewrite IH by (rewrite queue_depth_kids; lia).
    cbn [queue_level_pairs]. rewrite map_app, visit_all_app, root_pairs_keys.
    now rewrite app_assoc.
Qed.

Lemma root_pairs_level_0 (q : list tree) :
  root_pairs q = flat_map (level_elements 0) q.
Proof.
  induction q as [| [| k v l r h] q IH]; cbn; auto. now rewrite IH.
Qed.

Lemma kids_level_elements (d : nat) (q : list tree) :
  flat_map (level_elements d) (kids q) = flat_map (level_elements (S d)) q.
Proof.
  induction q as [| [| k v l r h] q IH]; cbn; auto.
  rewrite IH. now rewrite <- app_assoc.
Qed.

Lemma queue_level_pairs_by_depth (n : nat) :
  forall q : list tree,
    queue_level_pairs n q =
    List.concat (map (fun d => flat_map (level_elements d) q) (seq 0 n)).
Proof.
  induction n as [| n IH]; intros q; [reflexivity |].
  cbn [queue_level_pairs seq map List.concat].
  rewrite IH, root_pairs_level_0. f_equal.
  rewrite <- seq_shift, map_map. f_equal.
  apply map_ext. intros d. apply kids_level_elements.
Qed.

Lemma bforder_with_spec {S : Type} (self : AVLTree V)
    (visit : option (V -> S -> S)) (s : S) :
  bforder_with self visit s =
  (map fst (level_order (_root self)), visit_all visit (level_order (_root self)) s).
Proof.
  unfold bforder_with, level_order.
  rewrite (bforder_loop_level_pairs visit (depth (_root self))) by (cbn; lia).
  rewrite queue_level_pairs_by_depth. cbn [app].
  assert (E : map (fun d => flat_map (level_elements d) [_root self])
                  (seq 0 (depth (_root self))) =
              map (fun d => level_elements d (_root self))
                  (seq 0 (depth (_root self)))).
  { apply map_ext. intros d. cbn. now rewrite app_nil_r. }
  now rewrite E.
Qed.

Lemma roots_kids_pairs_perm (q : list tree) :
  Permutation (root_pairs q ++ flat_map elements (kids q)) (flat_map elements q).
Proof.
  induction q as [| [| k v l r h] q IH]; cbn [root_pairs kids flat_map elements app].
  - constructor.
  - exact IH.
  - rewrite <- IH. rewrite <- !app_assoc. cbn [app].
    apply Permutation_cons_app.
    rewrite !app_assoc. apply Permutation_app_tail.
    rewrite <- app_assoc. apply Permutation_app_comm.
Qed.

Lemma queue_level_pairs_perm (n : nat) :
  forall q : list tree,
    (queue_depth q <= n)%nat ->
    Permutation (queue_level_pairs n q) (flat_map elements q).
Proof.
  induction n as [| n IH]; intros q Hd.
  - destruct (queue_depth_zero q) as [Hr Hk]; [lia |].
    rewrite <- roots_kids_pairs_perm, Hk. cbn.
    pose proof (root_pairs_keys q) as E. rewrite Hr in E.
    destruct (root_pairs q); [constructor | discriminate].
  - cbn [queue_level_pairs]. rewrite IH by (rewrite queue_depth_kids; lia).
    apply roots_kids_pairs_perm.
Qed.

Lemma level_order_perm (t : tree) : Permutation (level_order t) (elements t).
Proof.
  pose proof (queue_level_pairs_perm (depth t) [t]) as H.
  rewrite queue_level_pairs_by_depth in H.
  assert (E : map (fun d => flat_map (level_elements d) [t]) (seq 0 (depth t)) =
              map (fun d => level_elements d t) (seq 0 (depth t))).
  { apply map_ext. intros d. cbn. now rewrite app_nil_r. }
  rewrite E in H. unfold level_order.
  replace (elements t) with (flat_map elements [t]) by (cbn; now rewrite app_nil_r).
  apply H. cbn. lia.
Qed.

(** X12: [bforder()] returns every key of the tree exactly as often as
    [inorder()] does, so the two lists are rearrangements of each other and
    as long as [size()]. *)
Theorem bforder_same_keys_as_inorder (self : AVLTree V) :
  Permutation (bforder self) (inorder self) /\
  Z.of_nat (List.length (bforder self)) = size self.
Proof.
  assert (Hp : Permutation (bforder self) (inorder self)).
  { unfold bforder. rewrite bforder_with_spec, inorder_keys. cbn [fst].
    unfold keys_of. apply Permutation_map, level_order_perm. }
  split; [exact Hp |].
  rewrite (Permutation_length Hp), inorder_keys. symmetry. apply _size_length.
Qed.

(** The breadth-first traversal in terms of the level order, for an
    argument that has gone through the test [if visit:]. *)
Lemma bforder_callback (S : Type) (self : AVLTree V)
    (visit : option (V -> S -> S)) (s : S) :
  bforder_with self visit s =
    (map fst (level_order (_root self)),
     visit_all visit (level_order (_root self)) s) /\
  fst (bforder_with self visit s) = bforder self /\
  Permutation (level_order (_root self)) (elements (_root self)).
Proof.
  split_all.
  - apply bforder_with_spec.
  - unfold bforder. now rewrite !bforder_with_spec.
  - apply level_order_perm.
Qed.

End BreadthFirst.

(** ** Rotations, heights and the successor *)

Section Structure.

Context {V : Type}.

Local Abbreviation tree := (AVLNode V).

(** X14: on a node with coherent cached heights, a right rotation followed
    by a left rotation gives back the very same node, and so does a left
    rotation followed by a right one. *)
Theorem rotations_undo_each_other (k : Z) (v : V) (l r : tree) (h : Z) :
  heights_ok (Node k v l r h) ->
  (l <> Absent ->
   exists t', rotate_right (Node k v l r h) = Some t' /\
              rotate_left t' = Some (Node k v l r h)) /\
  (r <> Absent ->
   exists t', rotate_left (Node k v l r h) = Some t' /\
              rotate_right t' = Some (Node k v l r h)).
Proof.
  intros (Hl & Hr & Hh). split.
  - intros Hne. destruct l as [| lk lv ll lr lh]; [congruence |].
    destruct Hl as (Hll & Hlr & Hlh).
    eexists. split; [reflexivity |].
    height_facts. cbn. cbn in Hh. do 2 f_equal; [f_equal |]; lia.
  - intros Hne. destruct r as [| rk rv rl rr rh]; [congruence |].
    destruct Hr as (Hrl & Hrr & Hrh).
    eexists. split; [reflexivity |].
    height_facts. cbn. cbn in Hh. do 2 f_equal; [f_equal |]; lia.
Qed.

Lemma pow2_half_step (a b : Z) :
  0 <= a -> a <= b + 2 -> 0 <= b -> 2 ^ (a / 2) <= 2 * 2 ^ (b / 2).
Proof.
  intros Ha Hab Hb.
  rewrite <- Z.pow_succ_r by (apply Z.div_pos; lia).
  apply Z.pow_le_mono_r; [lia |].
  replace (Z.succ (b / 2)) with ((b + 1 * 2) / 2) by (rewrite Z.div_add; lia).
  apply Z.div_le_mono; lia.
Qed.

Lemma avl_size_bound (t : tree) :
  avl t -> 2 ^ (true_height t / 2) <= _size t + 1.
Proof.
  induction t as [| k v l IHl r IHr h]; intros Ha.
  - cbn. lia.
  - apply avl_node in Ha. destruct Ha as (Al & Ar & Hh & Hb).
    specialize (IHl Al). specialize (IHr Ar).
    destruct Al as [Hl _], Ar as [Hr _].
    height_facts. cbn [true_height _size].
    assert (Hml : 2 ^ ((Z.max (true_height l) (true_height r) + 1) / 2)
                  <= 2 * 2 ^ (true_height l / 2)) by (apply pow2_half_step; lia).
    assert (Hmr : 2 ^ ((Z.max (true_height l) (true_height r) + 1) / 2)
                  <= 2 * 2 ^ (true_height r / 2)) by (apply pow2_half_step; lia).
    lia.
Qed.

(** X15: after the constructor and any sequence of public calls the tree is
    no higher than twice the logarithm of its size:
    2 ^ (height / 2) <= size + 1, for the cached height of the root. *)
Theorem height_is_logarithmic
    (starting_sequence : list (Z * V)) (calls : list (call V)) :
  exists t0 t,
    init starting_sequence = Some t0 /\ run t0 calls = Some t /\
    2 ^ (child_height (_root t) / 2) <= size t + 1.
Proof.
  destruct (reachable_avl starting_sequence calls) as (t0 & t & H0 & Ht & Ha).
  exists t0, t. split_all; auto.
  rewrite (child_height_true _ (proj1 Ha)). now apply avl_size_bound.
Qed.

Lemma min_value_node_leftmost (t : tree) (sk : Z) (sv : V) (sl sr : tree) (sh : Z) :
  _min_value_node t = Some (Node sk sv sl sr sh) -> sl = Absent.
Proof.
  induction t as [| k v l IHl r _ h]; [discriminate |].
  cbn [_min_value_node]. destruct l as [| lk lv ll lr lh].
  - intros H. now inversion H.
  - exact IHl.
Qed.

(** X16: on a present subtree [_min_value_node] returns a node without
    left child whose pair comes first in order; in a search tree its key is
    strictly below every other key of the subtree. *)
Theorem min_value_node_is_minimum (t : tree) :
  t <> Absent ->
  exists sk sv sr sh rest,
    _min_value_node t = Some (Node sk sv Absent sr sh) /\
    elements t = (sk, sv) :: rest /\
    (bst t -> Forall (fun x => sk < x) (map fst rest)).
Proof.
  intros Hne.
  destruct (min_value_node_present t Hne) as (sk & sv & sl & sr & sh & Hmin).
  pose proof (min_value_node_leftmost _ _ _ _ _ _ Hmin) as ->.
  destruct (min_value_node_head _ _ _ _ _ _ Hmin) as (rest & Hrest).
  exists sk, sv, sr, sh, rest. split_all; auto.
  intros Hb. apply bst_ascending in Hb. unfold keys_of in Hb.
  rewrite Hrest in Hb. cbn [map fst] in Hb. now inversion Hb.
Qed.

Lemma insert_split (t : tree) (key : Z) (value : V) (t' : tree) :
  _insert t key value = Some t' ->
  exists xs ys, elements t = xs ++ ys /\ elements t' = xs ++ (key, value) :: ys.
Proof.
  revert t'. induction t as [| k v l IHl r IHr h]; intros t' H.
  - cbn in H. inversion H. exists [], []. auto.
  - cbn [_insert] in H. destruct (key <? k).
    + apply bind_Some in H. destruct H as (l' & Hl' & H).
      apply rebalance_elements in H. rewrite H. cbn [elements].
      destruct (IHl _ Hl') as (xs & ys & -> & ->).
      exists xs, (ys ++ (k, v) :: elements r). split; app_norm.
    + apply bind_Some in H. destruct H as (r' & Hr' & H).
      apply rebalance_elements in H. rewrite H. cbn [elements].
      destruct (IHr _ Hr') as (xs & ys & -> & ->).
      exists (elements l ++ (k, v) :: xs), ys. split; app_norm.
Qed.

(** X17: inserting a key that is not in a coherent, balanced search tree
    and deleting it again returns a tree with the same pairs in the same
    order as before (the shape may differ). *)
Theorem insert_then_delete_restores (self : AVLTree V) (key : Z) (value : V) :
  avl (_root self) -> bst (_root self) -> ~ In key (inorder self) ->
  exists t1 t2,
    insert self key value = Some t1 /\
    delete t1 key = Some t2 /\
    elements (_root t2) = elements (_root self) /\
    inorder t2 = inorder self.
Proof.
  intros Ha Hb Hn. rewrite inorder_keys in Hn.
  destruct (insert_avl (_root self) key value Ha) as (r1 & Hr1 & Ha1 & _).
  pose proof (insert_fresh_bst _ _ _ _ Hr1 Hb Hn) as Hb1.
  destruct (delete_avl r1 Ha1 key) as (r2 & Hr2 & _).
  exists (mkAVLTree r1), (mkAVLTree r2).
  unfold insert, delete. rewrite Hr1. cbn [bind _root]. rewrite Hr2. cbn [bind].
  assert (He : elements r2 = elements (_root self)).
  { rewrite (delete_elements _ Hb1 _ _ Hr2).
    destruct (insert_split _ _ _ _ Hr1) as (xs & ys & Hxy & ->).
    unfold keys_of in Hn. rewrite Hxy, map_app, in_app_iff in Hn.
    unfold remove_key. rewrite filter_app. cbn [filter fst].
    rewrite Z.eqb_refl. cbn [negb].
    fold (remove_key key xs). fold (remove_key key ys).
    rewrite !remove_key_absent; auto.
    - apply Forall_forall. intros x Hx ->. tauto.
    - apply Forall_forall. intros x Hx ->. tauto. }
  split_all; auto.
  rewrite !inorder_keys. unfold keys_of. cbn [_root]. now rewrite He.
Qed.

(** X18: on a coherent, balanced tree an insertion leaves the cached height
    of the root as it is or raises it by one, and a deletion leaves it or
    lowers it by one. *)
Theorem height_moves_by_at_most_one (self : AVLTree V) (key : Z) (value : V) :
  avl (_root self) ->
  (exists self', insert self key value = Some self' /\
     child_height (_root self) <= child_height (_root self')
       <= child_height (_root self) + 1) /\
  (exists self', delete self key = Some self' /\
     child_height (_root self) - 1 <= child_height (_root self')
       <= child_height (_root self)).
Proof.
  intros Ha. split.
  - destruct (insert_avl (_root self) key value Ha) as (t' & Ht' & _ & Hh).
    exists (mkAVLTree t'). unfold insert. rewrite Ht'. cbn. auto.
  - destruct (delete_avl (_root self) Ha key) as (t' & Ht' & _ & Hh).
    exists (mkAVLTree t'). unfold delete. rewrite Ht'. cbn. auto.
Qed.

End Structure.

(** ** The further properties on concrete trees *)

Ltac three_avl := unfold avl; concrete.
Ltac three_bst := cbn; repeat split; repeat constructor.
Ltac not_in_three := vm_compute; intros [H | [H | [H | []]]]; discriminate.

Lemma search_missing_key_witness :
  ~ In 25 (inorder (mkAVLTree three_nodes)) /\
  search (mkAVLTree three_nodes) 25 = None.
Proof.
  assert (Hn : ~ In 25 (inorder (mkAVLTree three_nodes))) by not_in_three.
  split; [exact Hn |].
  exact (search_missing_key (mkAVLTree three_nodes) 25 Hn).
Defined.

Lemma search_after_insert_fresh_witness :
  avl three_nodes /\ bst three_nodes /\
  ~ In 25 (inorder (mkAVLTree three_nodes)) /\
  exists self',
    insert (mkAVLTree three_nodes) 25 "d"%string = Some self' /\
    bst (_root self') /\
    search self' 25 = Some "d"%string /\
    forall other, other <> 25 ->
      search self' other = search (mkAVLTree three_nodes) other.
Proof.
  assert (Ha : avl three_nodes) by three_avl.
  assert (Hb : bst three_nodes) by three_bst.
  assert (Hn : ~ In 25 (inorder (mkAVLTree three_nodes))) by not_in_three.
  split; [exact Ha |]. split; [exact Hb |]. split; [exact Hn |].
  exact (search_after_insert_fresh (mkAVLTree three_nodes) 25 "d"%string Ha Hb Hn).
Defined.

Lemma insert_adds_one_node_witness :
  avl three_nodes /\
  exists self',
    insert (mkAVLTree three_nodes) 20 "z"%string = Some self' /\
    size self' = size (mkAVLTree three_nodes) + 1 /\
    Permutation (inorder self') (20 :: inorder (mkAVLTree three_nodes)).
Proof.
  assert (Ha : avl three_nodes) by three_avl.
  split; [exact Ha |].
  exact (insert_adds_one_node (mkAVLTree three_nodes) 20 "z"%string Ha).
Defined.

Lemma search_after_delete_witness :
  avl three_nodes /\ bst three_nodes /\
  exists self',
    delete (mkAVLTree three_nodes) 20 = Some self' /\
    bst (_root self') /\
    search self' 20 = None /\
    forall other, other <> 20 ->
      search self' other = search (mkAVLTree three_nodes) other.
Proof.
  assert (Ha : avl three_nodes) by three_avl.
  assert (Hb : bst three_nodes) by three_bst.
  split; [exact Ha |]. split; [exact Hb |].
  exact (search_after_delete (mkAVLTree three_nodes) 20 Ha Hb).
Defined.

Lemma delete_present_key_witness :
  avl three_nodes /\ bst three_nodes /\
  In 20 (inorder (mkAVLTree three_nodes)) /\
  exists self',
    delete (mkAVLTree three_nodes) 20 = Some self' /\
    size self' = size (mkAVLTree three_nodes) - 1 /\
    ~ In 20 (inorder self').
Proof.
  assert (Ha : avl three_nodes) by three_avl.
  assert (Hb : bst three_nodes) by three_bst.
  assert (Hin : In 20 (inorder (mkAVLTree three_nodes))).
  { vm_compute. right. left. reflexivity. }
  split; [exact Ha |]. split; [exact Hb |]. split; [exact Hin |].
  exact (delete_present_key (mkAVLTree three_nodes) 20 Ha Hb Hin).
Defined.

Lemma fresh_calls_keep_search_tree_witness :
  fresh_inserts empty fresh_calls_example /\
  exists t,
    run empty fresh_calls_example = Some t /\ bst (_root t) /\
    strictly_ascending (inorder t).
Proof.
  assert (Hf : fresh_inserts empty fresh_calls_example).
  { vm_compute. repeat split; intuition discriminate. }
  split; [exact Hf |].
  exact (fresh_calls_keep_search_tree fresh_calls_example Hf).
Defined.

Lemma init_distinct_keys_witness :
  NoDup (map fst distinct_items) /\
  exists self,
    init distinct_items = Some self /\
    size self = Z.of_nat (List.length distinct_items) /\
    Permutation (inorder self) (map fst distinct_items) /\
    strictly_ascending (inorder self) /\
    forall key value, In (key, value) distinct_items -> search self key = Some value.
Proof.
  assert (Hnd : NoDup (map fst distinct_items)).
  { cbn. repeat (constructor; [cbn; intuition discriminate |]). constructor. }
  split; [exact Hnd |].
  exact (init_distinct_keys distinct_items Hnd).
Defined.

Lemma preorder_postorder_keys_witness :
  _root (mkAVLTree three_nodes)
  = Node 20 "b"%string (Node 10 "a"%string Absent Absent 1)
                       (Node 30 "c"%string Absent Absent 1) 2 /\
  exists front back,
    fst (preorder_with (mkAVLTree three_nodes) (None : option (string -> unit -> unit)) tt)
      = 20 :: back /\
    fst (postorder_with (mkAVLTree three_nodes) (None : option (string -> unit -> unit)) tt)
      = front ++ [20].
Proof.
  assert (Hr : _root (mkAVLTree three_nodes)
               = Node 20 "b"%string (Node 10 "a"%string Absent Absent 1)
                                    (Node 30 "c"%string Absent Absent 1) 2)
    by reflexivity.
  split; [exact Hr |].
  exact (proj2 (proj2 (preorder_postorder_keys (mkAVLTree three_nodes))) _ _ _ _ _ Hr).
Defined.

Lemma rotations_undo_each_other_witness :
  heights_ok three_nodes /\
  (exists t', rotate_right three_nodes = Some t' /\ rotate_left t' = Some three_nodes) /\
  (exists t', rotate_left three_nodes = Some t' /\ rotate_right t' = Some three_nodes).
Proof.
  assert (Hh : heights_ok three_nodes) by concrete.
  split; [exact Hh |].
  destruct (rotations_undo_each_other 20 "b"%string
              (Node 10 "a"%string Absent Absent 1)
              (Node 30 "c"%string Absent Absent 1) 2 Hh) as [Hr Hl].
  split; [apply Hr | apply Hl]; discriminate.
Defined.

Lemma min_value_node_is_minimum_witness :
  three_nodes <> Absent /\ bst three_nodes /\
  exists sk sv sr sh rest,
    _min_value_node three_nodes = Some (Node sk sv Absent sr sh) /\
    elements three_nodes = (sk, sv) :: rest /\
    Forall (fun x => sk < x) (map fst rest).
Proof.
  assert (Hne : three_nodes <> Absent) by discriminate.
  assert (Hb : bst three_nodes) by three_bst.
  split; [exact Hne |]. split; [exact Hb |].
  destruct (min_value_node_is_minimum three_nodes Hne)
    as (sk & sv & sr & sh & rest & Hmin & Hel & Hlt).
  exists sk, sv, sr, sh, rest.
  split; [exact Hmin |]. split; [exact Hel |]. exact (Hlt Hb).
Defined.

Lemma insert_then_delete_restores_witness :
  avl three_nodes /\ bst three_nodes /\
  ~ In 25 (inorder (mkAVLTree three_nodes)) /\
  exists t1 t2,
    insert (mkAVLTree three_nodes) 25 "d"%string = Some t1 /\
    delete t1 25 = Some t2 /\
    elements (_root t2) = elements three_nodes /\
    inorder t2 = inorder (mkAVLTree three_nodes).
Proof.
  assert (Ha : avl three_nodes) by three_avl.
  assert (Hb : bst three_nodes) by three_bst.
  assert (Hn : ~ In 25 (inorder (mkAVLTree three_nodes))) by not_in_three.
  split; [exact Ha |]. split; [exact Hb |]. split; [exact Hn |].
  exact (insert_then_delete_restores (mkAVLTree three_nodes) 25 "d"%string Ha Hb Hn).
Defined.

Lemma height_moves_by_at_most_one_witness :
  avl three_nodes /\
  (exists self', insert (mkAVLTree three_nodes) 25 "d"%string = Some self' /\
     child_height three_nodes <= child_height (_root self')
       <= child_height three_nodes + 1) /\
  (exists self', delete (mkAVLTree three_nodes) 25 = Some self' /\
     child_height three_nodes - 1 <= child_height (_root self')
       <= child_height three_nodes).
Proof.
  assert (Ha : avl three_nodes) by three_avl.
  split; [exact Ha |].
  exact (height_moves_by_at_most_one (mkAVLTree three_nodes) 25 "d"%string Ha).
Defined.

(** ** Trees with duplicated keys *)

Section Duplicates.

Context {V : Type}.

Local Abbreviation tree := (AVLNode V).

(** X19: [balance] on a node whose height was just updated, whose subtrees
    are coherent and balanced and differ in height by at most two, returns
    a coherent, balanced tree with the same pairs in the same order; when
    the subtrees differ by at most one the node is returned unchanged. *)
Theorem balance_restores_invariants (k : Z) (v : V) (l r : tree) :
  avl l -> avl r ->
  -2 <= child_height l - child_height r <= 2 ->
  exists t',
    balance (Node k v l r (Z.max (child_height l) (child_height r) + 1)) = Some t' /\
    avl t' /\
    elements t' = elements l ++ (k, v) :: elements r /\
    (Z.abs (child_height l - child_height r) <= 1 ->
     t' = Node k v l r (Z.max (child_height l) (child_height r) + 1)).
Proof.
  intros Al Ar Hd.
  destruct (rebalance_spec k v l r (Z.max (child_height l) (child_height r) + 1) Al Ar Hd)
    as (t' & Hreb & Ha & _ & _ & Hid).
  unfold rebalance in Hreb. cbn [update_height bind] in Hreb.
  exists t'. split_all; auto.
  apply balance_elements in Hreb. exact Hreb.
Qed.

Lemma _search_present (t : tree) (key : Z) :
  ascending (keys_of t) -> In key (keys_of t) ->
  exists value, _search t key = Some value.
Proof.
  induction t as [| k v l IHl r IHr h]; intros Hs Hin; [contradiction |].
  rewrite keys_of_node in Hs, Hin. apply ascending_le_app_cons in Hs.
  destruct Hs as (Hsl & Hsr & Hle & Hge).
  rewrite in_app_iff in Hin. cbn [In] in Hin. cbn [_search].
  rewrite Forall_forall in Hle, Hge.
  destruct (Z.eqb_spec key k) as [-> | Hne]; [eauto |].
  destruct (Z.ltb_spec key k) as [Hk | Hk].
  - apply IHl; auto. destruct Hin as [Hin | [Hin | Hin]]; auto; [congruence |].
    apply Hge in Hin. lia.
  - apply IHr; auto. destruct Hin as [Hin | [Hin | Hin]]; auto; [| congruence].
    apply Hle in Hin. lia.
Qed.

(** On a tree whose in-order keys do not descend, [_search] reaches a node
    with the key whenever one exists. *)
Lemma search_none_iff_absent (self : AVLTree V) (key : Z) :
  ascending (inorder self) ->
  (search self key = None <-> ~ In key (inorder self)).
Proof.
  rewrite inorder_keys. intros Hs. unfold search. split.
  - intros Hnone Hin. destruct (_search_present _ _ Hs Hin) as (v & Hv). congruence.
  - apply _search_absent.
Qed.

Lemma _delete_removes_one (t : tree) :
  forall key t',
    ascending (keys_of t) -> In key (keys_of t) ->
    _delete t key = Some t' ->
    Permutation (key :: keys_of t') (keys_of t).
Proof.
  induction t as [| k v l IHl r IHr h]; intros key t' Hs Hin H; [contradiction |].
  rewrite keys_of_node in Hs, Hin |- *. apply ascending_le_app_cons in Hs.
  destruct Hs as (Hsl & Hsr & Hle & Hge).
  rewrite in_app_iff in Hin. cbn [In] in Hin.
  cbn [_delete] in H. rewrite Z.gtb_ltb in H.
  destruct (Z.ltb_spec key k) as [Hk | Hk].
  - apply bind_Some in H. destruct H as (l' & Hl' & H).
    rewrite (rebalance_keys _ _ H), keys_of_node.
    assert (Hinl : In key (keys_of l)).
    { destruct Hin as [Hin | [Hin | Hin]]; auto; [lia |].
      rewrite Forall_forall in Hge. apply Hge in Hin. lia. }
    rewrite <- (IHl _ _ Hsl Hinl Hl'). reflexivity.
  - destruct (Z.ltb_spec k key) as [Hk' | Hk'].
    + apply bind_Some in H. destruct H as (r' & Hr' & H).
      rewrite (rebalance_keys _ _ H), keys_of_node.
      assert (Hinr : In key (keys_of r)).
      { destruct Hin as [Hin | [Hin | Hin]]; auto; [| lia].
        rewrite Forall_forall in Hle. apply Hle in Hin. lia. }
      rewrite <- (IHr _ _ Hsr Hinr Hr').
      rewrite <- !Permutation_middle. apply perm_swap.
    + assert (key = k) by lia. subst key.
      destruct l as [| lk lv ll lr lh].
      { inversion H; subst. reflexivity. }
      destruct r as [| rk rv rl rr rh].
      { inversion H; subst. change (keys_of (@Absent V)) with (@nil Z).
        rewrite <- Permutation_middle, app_nil_r. reflexivity. }
      remember (Node rk rv rl rr rh) as rn eqn:Ern. clear Ern.
      remember (Node lk lv ll lr lh) as ln eqn:Eln. clear Eln.
      apply bind_Some in H. destruct H as (temp & Htemp & H).
      destruct temp as [| sk sv sl sr sh]; [discriminate |].
      apply bind_Some in H. destruct H as (r' & Hr' & H).
      rewrite (rebalance_keys _ _ H), keys_of_node.
      destruct (min_value_node_key_head _ _ _ _ _ _ Htemp) as (rest & Hrest).
      assert (Hinr : In sk (keys_of rn)) by (rewrite Hrest; now left).
      rewrite <- (IHr _ _ Hsr Hinr Hr').
      apply Permutation_cons_app. reflexivity.
Qed.

(** X21: on a coherent, balanced tree whose in-order keys do not descend,
    deleting a key some node holds returns a tree whose in-order keys are
    the old ones with one occurrence of that key removed, so that the size
    drops by one, also when the key is stored more than once. *)
Theorem delete_removes_one_occurrence (self : AVLTree V) (key : Z) :
  avl (_root self) -> ascending (inorder self) -> In key (inorder self) ->
  exists self',
    delete self key = Some self' /\
    Permutation (key :: inorder self') (inorder self) /\
    size self' = size self - 1.
Proof.
  intros Ha Hs Hin. rewrite inorder_keys in Hs, Hin.
  destruct (delete_avl (_root self) Ha key) as (t' & Ht' & _).
  exists (mkAVLTree t'). unfold delete. rewrite Ht'. cbn [bind].
  pose proof (_delete_removes_one _ _ _ Hs Hin Ht') as Hp.
  split_all; auto.
  - rewrite !inorder_keys. exact Hp.
  - unfold size. rewrite !_size_length. cbn [_root].
    rewrite <- (Permutation_length Hp). cbn [List.length]. lia.
Qed.

End Duplicates.

Lemma balance_restores_invariants_witness :
  avl (Node 20 "b"%string (Node 10 "a"%string Absent Absent 1) Absent 2) /\
  avl (@Absent string) /\
  exists t',
    balance left_chain = Some t' /\ avl t' /\
    elements t' = elements left_chain /\
    (Z.abs (2 - 0) <= 1 -> t' = left_chain).
Proof.
  assert (Al : avl (Node 20 "b"%string (Node 10 "a"%string Absent Absent 1) Absent 2))
    by three_avl.
  assert (Ar : avl (@Absent string)) by three_avl.
  split; [exact Al |]. split; [exact Ar |].
  refine (balance_restores_invariants 30 "c"%string _ _ Al Ar _).
  cbn. lia.
Defined.

Lemma delete_removes_one_occurrence_witness :
  avl three_fives /\ ascending (inorder (mkAVLTree three_fives)) /\
  In 5 (inorder (mkAVLTree three_fives)) /\
  exists self',
    delete (mkAVLTree three_fives) 5 = Some self' /\
    Permutation (5 :: inorder self') (inorder (mkAVLTree three_fives)) /\
    size self' = size (mkAVLTree three_fives) - 1.
Proof.
  assert (Ha : avl three_fives) by three_avl.
  assert (Hs : ascending (inorder (mkAVLTree three_fives))).
  { vm_compute. repeat constructor; discriminate. }
  assert (Hin : In 5 (inorder (mkAVLTree three_fives))).
  { vm_compute. left. reflexivity. }
  split; [exact Ha |]. split; [exact Hs |]. split; [exact Hin |].
  exact (delete_removes_one_occurrence (mkAVLTree three_fives) 5 Ha Hs Hin).
Defined.

(** ** What the caller observes *)

Section Observed.

Context {V : Type}.

Local Abbreviation tree := (AVLNode V).

(** X2: a value other than [None] that [search(key)] returns is the value
    of a stored pair with that key; on a search tree, [search(key)]
    returns the value [v], [v] not being [None], exactly when the pair of
    [key] and [v] is stored. *)
Theorem search_returns_stored_pairs (is_none : V -> bool)
    (self : AVLTree V) (key : Z) (value : V) :
  (search_returns is_none self key = Some value ->
   In (key, value) (elements (_root self)) /\ is_none value = false) /\
  (bst (_root self) -> is_none value = false ->
   (search_returns is_none self key = Some value <->
    In (key, value) (elements (_root self)))).
Proof.
  unfold search_returns, search. split.
  - destruct (_search (_root self) key) as [v |] eqn:E; [| discriminate].
    destruct (is_none v) eqn:En; [discriminate |].
    intros H. inversion H; subst. split; [now apply _search_sound | exact En].
  - intros Hb Hv. split.
    + destruct (_search (_root self) key) as [v |] eqn:E; [| discriminate].
      destruct (is_none v) eqn:En; [discriminate |].
      intros H. inversion H; subst. now apply _search_sound.
    + intros Hin. rewrite (_search_complete _ _ _ Hb Hin), Hv. reflexivity.
Qed.

(** X20: on a tree whose in-order keys do not descend (as on every tree the
    public calls produce, duplicated keys or not) and in which no stored
    value is [None], [search(key)] returns [None] exactly when no node
    holds [key]. *)
Theorem search_returns_none_iff_absent (is_none : V -> bool)
    (self : AVLTree V) (key : Z) :
  ascending (inorder self) ->
  Forall (fun p => is_none (snd p) = false) (elements (_root self)) ->
  (search_returns is_none self key = None <-> ~ In key (inorder self)).
Proof.
  intros Hs Hv. unfold search_returns.
  pose proof (search_none_iff_absent self key Hs) as Hiff.
  split.
  - destruct (search self key) as [v |] eqn:E; [| intros _; now apply Hiff].
    rewrite Forall_forall in Hv.
    pose proof (Hv _ (_search_sound _ _ _ E)) as Hn. cbn [snd] in Hn.
    rewrite Hn. discriminate.
  - intros Hn. apply Hiff in Hn. now rewrite Hn.
Qed.

Lemma visit_all_tested {S : Type} (visit : option (callback V S))
    (ps : list (Z * V)) (s : S) :
  visit_all (tested visit) ps s = called_on visit ps s.
Proof.
  unfold visit_all, tested, called_on.
  destruct visit as [[[|] f] |]; cbn [truth_value on_value call_visit].
  - reflexivity.
  - induction ps as [| p ps IH]; cbn; auto.
  - induction ps as [| p ps IH]; cbn; auto.
Qed.



End Observed.

Lemma search_returns_stored_pairs_witness :
  bst three_nodes /\
  (search_returns (fun _ : string => false) (mkAVLTree three_nodes) 10
   = Some "a"%string <->
   In (10, "a"%string) (elements three_nodes)).
Proof.
  assert (Hb : bst three_nodes) by three_bst.
  split; [exact Hb |].
  exact (proj2 (search_returns_stored_pairs (fun _ : string => false)
                  (mkAVLTree three_nodes) 10 "a"%string) Hb eq_refl).
Defined.

Lemma search_returns_none_iff_absent_witness :
  ascending (inorder (mkAVLTree three_fives)) /\
  Forall (fun p => (fun _ : string => false) (snd p) = false) (elements three_fives) /\
  (search_returns (fun _ : string => false) (mkAVLTree three_fives) 7 = None <->
   ~ In 7 (inorder (mkAVLTree three_fives))).
Proof.
  assert (Hs : ascending (inorder (mkAVLTree three_fives))).
  { vm_compute. repeat constructor; discriminate. }
  assert (Hv : Forall (fun p => (fun _ : string => false) (snd p) = false)
                      (elements three_fives)).
  { cbn. repeat constructor. }
  split; [exact Hs |]. split; [exact Hv |].
  exact (search_returns_none_iff_absent (fun _ : string => false)
           (mkAVLTree three_fives) 7 Hs Hv).
Defined.

(** C6: on the tree the constructor builds from the keys 4,4,2,4,2,6,4 the
    root 4/"a" has two children and the leftmost node of its right subtree
    is 4/"b".  [delete(4)] copies 4/"b" into the root, but the deletion by
    key inside the right subtree stops at its root 4/"d": the successor
    node 4/"b" stays in the right subtree and the pair 4/"d" is lost. *)
Theorem delete_two_children_misses_successor_among_equal_keys :
  exists (t t' : AVLTree string) l r h r',
    init duplicate_items = Some t /\
    _root t = Node 4 "a"%string l r h /\
    l <> Absent /\ r <> Absent /\
    heights_ok (_root t) /\ balanced (_root t) /\
    _min_value_node r = Some (Node 4 "b"%string Absent Absent 1) /\
    elements r = [(4, "b"%string); (4, "d"%string); (4, "g"%string); (6, "f"%string)] /\
    delete t 4 = Some t' /\
    _root t' = Node 4 "b"%string l r' 3 /\
    elements r' = [(4, "b"%string); (4, "g"%string); (6, "f"%string)].
Proof.
  do 6 eexists.
  split; [reflexivity |]. split; [reflexivity |].
  split; [discriminate |]. split; [discriminate |].
  split; [concrete |]. split; [concrete |].
  repeat split; reflexivity.
Qed.
